(** * Fundamental-rights violation screener: the text pipeline of [main.py]

    A shallow embedding of the service's request pipeline (lazy
    initialisation and model selection, retrieval, prompt rendering, the
    reasoner call, the normaliser and the response parser), followed by the
    properties established about it.

    Conventions.
    - A Python [str] is a list of Unicode code points ([N]).
    - Calls that leave the process (the corpus file, the sentence encoder,
      the generative-model provider) are the fields of [Services], threaded
      through an explicit world state.
    - A raised Python exception is a value; module-level globals are the
      record [Globals]. *)

From Stdlib Require Import String Ascii.
From Stdlib Require Import List NArith ZArith Bool Lia.
From Stdlib Require Import Sorted Permutation.
From Stdlib Require Import Floats.
Import ListNotations.

Set Warnings "-inexact-float".

Set Implicit Arguments.

(** ** Python strings *)

Definition char := N.
Definition str := list char.

(** A source literal made of ASCII characters only. *)
Definition lit (s : string) : str := map N_of_ascii (list_ascii_of_string s).
Arguments lit s%_string.

Definition LF : char := 10%N.          (* "\n" *)
Definition BACKSLASH : char := 92%N.
Definition DQUOTE : char := 34%N.
Definition EN_DASH : char := 8211%N.   (* U+2013 *)

Fixpoint str_eqb (a b : str) : bool :=
  match a, b with
  | [], [] => true
  | x :: a', y :: b' => N.eqb x y && str_eqb a' b'
  | _, _ => false
  end.

(** [s.startswith(p)], returning what follows the prefix. *)
Fixpoint strip_prefix (p s : str) : option str :=
  match p with
  | [] => Some s
  | x :: p' =>
      match s with
      | [] => None
      | y :: s' => if N.eqb x y then strip_prefix p' s' else None
      end
  end.

(** [s.partition(sep)] at the first (leftmost) occurrence of [sep]:
    [Some (head, tail)], or [None] when [sep] does not occur. *)
Fixpoint partition (sep s : str) : option (str * str) :=
  match strip_prefix sep s with
  | Some tail => Some ([], tail)
  | None =>
      match s with
      | [] => None
      | c :: s' =>
          match partition sep s' with
          | Some (head, tail) => Some (c :: head, tail)
          | None => None
          end
      end
  end.

(** [sub in s]. *)
Definition contains (sub s : str) : bool :=
  match partition sub s with Some _ => true | None => false end.

(** [s.split(sep)] for a non-empty separator: cut at the leftmost
    occurrence, continue after it.  Every cut removes at least one
    character, so [length s] rounds are enough. *)
Fixpoint split_fuel (fuel : nat) (sep s : str) : list str :=
  match fuel with
  | O => [s]
  | S fuel' =>
      match partition sep s with
      | None => [s]
      | Some (head, tail) => head :: split_fuel fuel' sep tail
      end
  end.

Definition split (sep s : str) : list str := split_fuel (length s) sep s.

(** [s] up to the first occurrence of [sep], all of [s] when there is none
    (what [s.split(sep)[0]] evaluates to). *)
Definition first_piece (sep s : str) : str :=
  match partition sep s with Some (h, _) => h | None => s end.

(** [str.isspace] on one code point (the characters [strip()] removes and
    the class [\s] of a [str] pattern). *)
Definition isspace (c : char) : bool :=
  ((9 <=? c) && (c <=? 13) || (28 <=? c) && (c <=? 32)
   || (c =? 133) || (c =? 160) || (c =? 5760)
   || (8192 <=? c) && (c <=? 8202) || (c =? 8232) || (c =? 8233)
   || (c =? 8239) || (c =? 8287) || (c =? 12288))%N.

Fixpoint lstrip (s : str) : str :=
  match s with
  | [] => []
  | c :: s' => if isspace c then lstrip s' else s
  end.

Definition rstrip (s : str) : str := rev (lstrip (rev s)).

(** [s.strip()]. *)
Definition strip (s : str) : str := rstrip (lstrip s).

Definition is_ascii_upper (c : char) : bool := ((65 <=? c) && (c <=? 90))%N.

Definition ascii_lower (c : char) : char :=
  if is_ascii_upper c then (c + 32)%N else c.

(** [s.lower()].  Besides A-Z, only U+0130 (to "i" and U+0307) and U+212A
    (to "k") lower-case to something containing an ASCII letter; the other
    code points are left as they are, which does not change what ASCII
    words occur in the result. *)
Definition lower_char (c : char) : str :=
  if (c =? 304)%N then [105; 775]%N
  else if (c =? 8490)%N then [107]%N
  else [ascii_lower c].

Definition lower (s : str) : str := flat_map lower_char s.

(** [l[i]] on a Python list: negative indices count from the end;
    [None] is IndexError. *)
Definition py_index (A : Type) (l : list A) (i : Z) : option A :=
  let n := Z.of_nat (length l) in
  if (0 <=? i)%Z && (i <? n)%Z then nth_error l (Z.to_nat i)
  else if (- n <=? i)%Z && (i <? 0)%Z then nth_error l (Z.to_nat (n + i))
  else None.

(** ** The fragment of [re] the normaliser uses

    A pattern is a sequence of atoms, matched left to right with
    backtracking, greedy and lazy repetition of a one-character class, and
    a look-ahead over literal alternatives. *)

Inductive atom : Type :=
| Chr (c : char)               (* a literal character *)
| ChrI (c : char)              (* a literal character under re.I *)
| StarG (p : char -> bool)     (* X* *)
| StarL (p : char -> bool)     (* X*? *)
| Ahead (alts : list str).     (* (?=a|b) *)

Definition regex := list atom.

(** IGNORECASE on a literal ASCII pattern character [c]: the text
    character matches when its simple lower-case is that of [c], or through
    the engine's extra equivalences (i and U+0131, s and U+017F); U+0130
    and U+212A lower-case to i and k. *)
Definition ci_match (c ch : char) : bool :=
  let lo := ascii_lower c in
  (ascii_lower ch =? lo)%N
  || ((lo =? 105) && ((ch =? 304) || (ch =? 305)))%N
  || ((lo =? 115) && (ch =? 383))%N
  || ((lo =? 107) && (ch =? 8490))%N.

Definition any_char (_ : char) : bool := true.          (* . under (?s) *)
Definition not_newline (c : char) : bool := negb (c =? LF)%N.   (* . *)

Definition chars (s : str) : regex := map Chr s.
Definition charsI (s : str) : regex := map ChrI s.

Definition has_prefix (p s : str) : bool :=
  match strip_prefix p s with Some _ => true | None => false end.

(** Match [r] at the start of [s]; the result is what follows the match
    (the first one in backtracking order). *)
Fixpoint match_here (r : regex) (s : str) {struct r} : option str :=
  match r with
  | [] => Some s
  | Chr c :: r' =>
      match s with
      | ch :: s' => if (ch =? c)%N then match_here r' s' else None
      | [] => None
      end
  | ChrI c :: r' =>
      match s with
      | ch :: s' => if ci_match c ch then match_here r' s' else None
      | [] => None
      end
  | StarG p :: r' =>
      (fix star (t : str) : option str :=
         match t with
         | ch :: t' =>
             if p ch then
               match star t' with
               | Some rest => Some rest
               | None => match_here r' t
               end
             else match_here r' t
         | [] => match_here r' t
         end) s
  | StarL p :: r' =>
      (fix star (t : str) : option str :=
         match match_here r' t with
         | Some rest => Some rest
         | None =>
             match t with
             | ch :: t' => if p ch then star t' else None
             | [] => None
             end
         end) s
  | Ahead alts :: r' =>
      if existsb (fun a => has_prefix a s) alts then match_here r' s else None
  end.

(** [re.search]: the leftmost match, as (text before it, text after it). *)
Fixpoint re_search (r : regex) (s : str) : option (str * str) :=
  match match_here r s with
  | Some rest => Some ([], rest)
  | None =>
      match s with
      | [] => None
      | c :: s' =>
          match re_search r s' with
          | Some (pre, rest) => Some (c :: pre, rest)
          | None => None
          end
      end
  end.

(** The replacement template of [re.sub]: backslash-n stands for a
    newline, a doubled backslash for one backslash. *)
Fixpoint expand_template (t : str) : str :=
  match t with
  | b :: ((c :: t') as more) =>
      if (b =? BACKSLASH)%N then
        if (c =? 110)%N then LF :: expand_template t'
        else if (c =? BACKSLASH)%N then BACKSLASH :: expand_template t'
        else b :: expand_template more
      else b :: expand_template more
  | _ => t
  end.

(** [re.sub(r, repl, s, count=1)]. *)
Definition re_sub_first (r : regex) (repl s : str) : str :=
  match re_search r s with
  | Some (pre, rest) => pre ++ expand_template repl ++ rest
  | None => s
  end.

(** [re.sub(r, repl, s)] for a pattern that cannot match the empty string:
    every replacement consumes a character, so [length s] rounds are
    enough. *)
Fixpoint re_sub_fuel (fuel : nat) (r : regex) (repl s : str) : str :=
  match fuel with
  | O => s
  | S fuel' =>
      match re_search r s with
      | Some (pre, rest) =>
          pre ++ expand_template repl ++ re_sub_fuel fuel' r repl rest
      | None => s
      end
  end.

Definition re_sub (r : regex) (repl s : str) : str :=
  re_sub_fuel (length s) r repl s.

Definition re_found (r : regex) (s : str) : bool :=
  match re_search r s with Some _ => true | None => false end.

(** ** The normaliser ([normalize_analysis_text])

    The patterns are the ones the source hands to [re]: they are raw
    strings whose backslashes are doubled, so each [\\] is a pattern for
    one backslash character and the letter after it is an ordinary
    letter. *)

Definition HDR_STATUS : str := lit "Violation Status:".
Definition HDR_ARTICLES : str := lit "Violated Article(s):".
Definition HDR_EXPLANATION : str := lit "Explanation:".
Definition HDR_NEXT : str := lit "What the person can do next:".

(** [r"Violation Status:\\s*No\\b"] with [re.I]. *)
Definition RE_STATUS_NO : regex :=
  charsI HDR_STATUS
  ++ [ChrI BACKSLASH; StarG (ci_match 115%N)]
  ++ charsI (lit "No")
  ++ [ChrI BACKSLASH; ChrI 98%N].

(** [r"(?i)Violation Status:.*"]. *)
Definition RE_STATUS_LINE : regex := charsI HDR_STATUS ++ [StarG not_newline].

(** [r"(?s)Explanation:\\s*.*?(?=\\n\\nWhat the person can do next:|\\Z)"]. *)
Definition RE_EXPLANATION : regex :=
  chars HDR_EXPLANATION
  ++ [Chr BACKSLASH; StarG (N.eqb 115%N); StarL any_char;
      Ahead [lit "\n\n" ++ HDR_NEXT; lit "\Z"]].

(** [r"(?s)What the person can do next:\\s*.*"]. *)
Definition RE_NEXT : regex :=
  chars HDR_NEXT ++ [Chr BACKSLASH; StarG (N.eqb 115%N); StarG any_char].

Definition MSG_EXPLANATION : str :=
  lit "No fundamental rights violation detected.".
Definition MSG_NEXT : str :=
  lit "No fundamental rights violation detected; no immediate action required.".

(** In the Python literals below a doubled backslash followed by n is the
    two characters backslash and n; a single backslash-n is a newline. *)
Definition normalize_analysis_text (text : option str) : option str :=
  match text with
  | None => None
  | Some text =>
      if re_found RE_STATUS_NO text then
        let text := re_sub_first RE_STATUS_LINE (lit "Violation Status: No") text in
        let text :=
          if re_found RE_EXPLANATION text then
            re_sub RE_EXPLANATION (HDR_EXPLANATION ++ [LF] ++ MSG_EXPLANATION) text
          else
            strip text ++ lit "\n\n" ++ HDR_EXPLANATION ++ [LF] ++ MSG_EXPLANATION in
        let text :=
          if re_found RE_NEXT text then
            re_sub RE_NEXT (HDR_NEXT ++ lit "\n" ++ MSG_NEXT) text
          else
            strip text ++ lit "\n\n" ++ HDR_NEXT ++ lit "\n" ++ MSG_NEXT in
        Some text
      else Some text
  end.

(** The pattern as the specification words it,
    [Violation Status:\s*No] case-insensitively. *)
Definition RE_STATUS_NO_spec : regex :=
  charsI HDR_STATUS ++ [StarG isspace] ++ charsI (lit "No").

(** ** Articles and the prompt builder ([build_prompt]) *)

(** A corpus record: a JSON object of which the code reads three keys,
    [article_id] by subscript and the other two with [.get(key, '')]. *)
Record Article : Type := {
  article_id : str;
  summary : option str;
  text : option str
}.

Definition get_or_empty (v : option str) : str :=
  match v with Some s => s | None => [] end.

(** A triple-quoted block: every source line is followed by a newline. *)
Definition unlines (ls : list str) : str :=
  flat_map (fun l => l ++ [LF]) ls.

Definition article_block (art : Article) : str :=
  [LF] ++ unlines
    [ lit "Article: " ++ article_id art;
      lit "Summary: " ++ get_or_empty (summary art);
      lit "Full Text: " ++ get_or_empty (text art);
      lit "---" ].

Definition build_prompt (user_scenario : str) (matched_articles : list Article) : str :=
  let article_text :=
    fold_left (fun acc art => acc ++ article_block art) matched_articles [] in
  [LF] ++ unlines
    [ lit "You are a legal assistant specialized in Sri Lankan Fundamental Rights.";
      [];
      lit "USER SCENARIO:";
      [DQUOTE] ++ user_scenario ++ [DQUOTE];
      [];
      lit "RELEVANT CONSTITUTION ARTICLES:";
      article_text;
      [];
      lit "TASK:";
      lit "- Decide whether this is a Fundamental Rights violation or not.";
      lit "- If YES, state the violated Article(s) using the format: ARTICLE <number> " ++ [EN_DASH] ++ lit " <short summary title>.";
      lit "- Provide a short plain-language Explanation (1-3 short paragraphs).";
      lit "- Provide " ++ [DQUOTE] ++ lit "What the person can do next:" ++ [DQUOTE] ++ lit " with practical steps and mention Article 17 remedy if applicable.";
      [];
      lit "RESPONSE FORMAT (STRICT):";
      lit "Produce ONLY plain text (no markdown, no bold, no lists characters like '*', no HTML). Use the exact headings below followed by content.";
      [];
      lit "Violation Status: Yes or No";
      [];
      lit "Violated Article(s):";
      lit "ARTICLE <number> " ++ [EN_DASH] ++ lit " <short summary title>";
      [];
      lit "Explanation:";
      lit "<one or two short paragraphs explaining why this situation does or does not violate the Article>";
      [];
      lit "What the person can do next:";
      lit "<practical next steps; mention Article 17 remedy if applicable and simple evidence-collection suggestions>";
      [];
      lit "Keep language simple and concise, suitable for ordinary citizens. Do not include extra sections or commentary." ].

(** ** Retrieval: the flat L2 index and [search_relevant_articles]

    Embedding coordinates are integers here, so that distances are exact;
    the code only uses the order of the distances. *)

Definition Vec := list Z.

Fixpoint sqdist (u v : Vec) : Z :=
  match u, v with
  | x :: u', y :: v' => ((x - y) * (x - y) + sqdist u' v')%Z
  | _, _ => 0%Z
  end.

(** [faiss.IndexFlatL2(d)] after [index.add(rows)]: the rows in insertion
    order, row i belonging to article i. *)
Record IndexFlatL2 : Type := {
  dimension : nat;
  rows : list Vec
}.

Definition index_add (ix : IndexFlatL2) (vs : list Vec) : IndexFlatL2 :=
  {| dimension := dimension ix; rows := rows ix ++ vs |}.

Fixpoint rank_insert (x : Z * nat) (l : list (Z * nat)) : list (Z * nat) :=
  match l with
  | [] => [x]
  | y :: l' => if (fst x <=? fst y)%Z then x :: l else y :: rank_insert x l'
  end.

(** All rows as (distance, label), by increasing distance. *)
Definition ranked (ix : IndexFlatL2) (q : Vec) : list (Z * nat) :=
  fold_right rank_insert []
    (combine (map (sqdist q) (rows ix)) (seq 0 (length (rows ix)))).

(** [index.search(q, k)] for one query: the labels of the [k] nearest
    rows, nearest first; when the index holds fewer than [k] rows the
    missing labels are -1.  The library refuses [k = 0], which is not
    modelled: the endpoints ask for 3 and 5, and the properties below that
    speak of any count take it positive. *)
Definition index_search (ix : IndexFlatL2) (q : Vec) (k : nat) : list Z :=
  let found := firstn k (ranked ix q) in
  map (fun x => Z.of_nat (snd x)) found ++ repeat (-1)%Z (k - length found).

(** ** Exceptions, globals and the outside world *)

Inductive exn_class : Type :=
| Exception_ | IndexError | AttributeError | TypeError | OSError | ProviderError.

(** An exception that [except Exception] catches; [message] is [str(e)]. *)
Record PyError : Type := { cls : exn_class; message : str }.

(** How a call ends when it does not return. *)
Inductive Failure : Type :=
| Uncaught (e : PyError)
| HTTPException (status_code : Z) (detail : str).

Inductive Result (A : Type) : Type :=
| Ok (a : A)
| Raise (f : Failure).
Arguments Ok {A} a.
Arguments Raise {A} f.

(** What [list_models()] may hand back, as far as the code inspects it. *)
Inductive Supported : Type :=
| Absent                    (* None, or no such key or attribute *)
| Items (l : list str)      (* a list or tuple of labels *)
| Single (v : str).         (* one label *)

Record ModelEntry : Type := {
  name : option str;
  supported_generation_methods : Supported;
  supportedMethods : Supported
}.

Inductive Listing : Type :=
| AList (ms : list ModelEntry)
| NotAList.

Inductive ModelsInfo : Type :=
| DictWithModels (models : Listing)    (* a dict that has the key "models" *)
| DictWithoutModels                    (* a dict that has not *)
| Plain (v : Listing).                 (* not a dict *)

(** The calls that leave the process.  [W] is the state of the world;
    [inl e] is the call raising [e]. *)
Record Services (W : Type) : Type := {
  (* open("data/cleaned_constitution_articles.json") and json.load *)
  load_corpus : W -> (PyError + list Article) * W;
  (* SentenceTransformer(name); the value is its encode function *)
  SentenceTransformer : str -> W -> (PyError + (str -> Vec)) * W;
  (* genai.GenerativeModel(name) *)
  GenerativeModel : str -> W -> (PyError + unit) * W;
  (* genai.list_models() *)
  list_models : W -> (PyError + ModelsInfo) * W;
  (* model.generate_content(prompt) and reading the reply's text attribute *)
  generate_content : str -> str -> W -> (PyError + option str) * W
}.

(** The module-level holders. *)
Record Globals : Type := {
  embed_model : option (str -> Vec);
  index : option IndexFlatL2;
  articles : option (list Article);
  gemini : option str       (* the bound model, by name *)
}.

Definition initial_globals : Globals :=
  {| embed_model := None; index := None; articles := None; gemini := None |}.

(** ** A state-and-exception monad for the request pipeline *)

Definition M (W A : Type) : Type := Globals -> W -> Result A * Globals * W.

Definition ret {W A} (a : A) : M W A := fun g w => (Ok a, g, w).

Definition raise {W A} (f : Failure) : M W A := fun g w => (Raise f, g, w).

Definition bind {W A B} (m : M W A) (k : A -> M W B) : M W B :=
  fun g w =>
    match m g w with
    | (Ok a, g', w') => k a g' w'
    | (Raise f, g', w') => (Raise f, g', w')
    end.

Definition get_globals {W} : M W Globals := fun g w => (Ok g, g, w).

Definition put_globals {W} (g : Globals) : M W unit := fun _ w => (Ok tt, g, w).

(** An outside call whose exception is not caught. *)
Definition call {W A} (op : W -> (PyError + A) * W) : M W A :=
  fun g w =>
    match op w with
    | (inr a, w') => (Ok a, g, w')
    | (inl e, w') => (Raise (Uncaught e), g, w')
    end.

(** An outside call inside [try], its exception handed to the caller. *)
Definition attempt {W A} (op : W -> (PyError + A) * W) : M W (PyError + A) :=
  fun g w => let (r, w') := op w in (Ok r, g, w').

Declare Scope py_scope.
Delimit Scope py_scope with py.
Notation "x <- c1 ;; c2" := (bind c1 (fun x => c2))
  (at level 61, c1 at next level, right associativity) : py_scope.
Notation "c1 ;; c2" := (bind c1 (fun _ => c2))
  (at level 61, right associativity) : py_scope.
Open Scope py_scope.

(** ** Response records *)

Record ScenarioInput : Type := { scenario : str }.

Record StructuredViolation : Type := {
  status : str;
  article : str;
  explanation : str;
  guidance : str;
  confidence : float
}.

Record Summary : Type := {
  total_violations : nat;
  risk_level : str;
  recommendations : list str
}.

Record ScreenResponse : Type := {
  violations : list StructuredViolation;
  response_summary : Summary;      (* the key "summary" *)
  raw_analysis : str
}.

Record AnalyzeResponse : Type := { analysis : option str }.

(** ** The response parser (the tail of [screen_scenario]) *)

Definition index_error : PyError :=
  {| cls := IndexError; message := lit "list index out of range" |}.

(** [l[i]] with the IndexError made explicit. *)
Definition item (A : Type) (l : list A) (i : Z) : PyError + A :=
  match py_index l i with
  | Some a => inr a
  | None => inl index_error
  end.

(** ["Violation Status:" in t and "Yes" in t.split("Violation Status:")[1].split("\n")[0]] *)
Definition has_violation (analysis_text : str) : PyError + bool :=
  if contains HDR_STATUS analysis_text then
    match item (split HDR_STATUS analysis_text) 1 with
    | inl e => inl e
    | inr segment =>
        match item (split [LF] segment) 0 with
        | inl e => inl e
        | inr line => inr (contains (lit "Yes") line)
        end
    end
  else inr false.

(** [t.split(a)[1].split(b)[0].strip() if a in t else ""] *)
Definition section_between (a b analysis_text : str) : PyError + str :=
  if contains a analysis_text then
    match item (split a analysis_text) 1 with
    | inl e => inl e
    | inr tail =>
        match item (split b tail) 0 with
        | inl e => inl e
        | inr span => inr (strip span)
        end
    end
  else inr [].

(** [t.split(a)[1].strip() if a in t else ""] *)
Definition section_after (a analysis_text : str) : PyError + str :=
  if contains a analysis_text then
    match item (split a analysis_text) 1 with
    | inl e => inl e
    | inr tail => inr (strip tail)
    end
  else inr [].

Definition STATUS_DETECTED : str := lit "Violation Detected".

Definition no_violation_record : StructuredViolation :=
  {| status := lit "No Violation";
     article := lit "N/A";
     explanation := lit "No fundamental rights violation detected in this scenario.";
     guidance := lit "No immediate action required.";
     confidence := 0.95%float |}.

(** Lines 250-296: from the normalised text to the response body. *)
Definition parse_response (analysis_text : str) : PyError + ScreenResponse :=
  match has_violation analysis_text with
  | inl e => inl e
  | inr has_violation =>
      let violations : PyError + list StructuredViolation :=
        if has_violation then
          match section_between HDR_ARTICLES HDR_EXPLANATION analysis_text with
          | inl e => inl e
          | inr articles_section =>
              match section_between HDR_EXPLANATION HDR_NEXT analysis_text with
              | inl e => inl e
              | inr explanation =>
                  match section_after HDR_NEXT analysis_text with
                  | inl e => inl e
                  | inr guidance =>
                      inr ([] ++
                           [ {| status := STATUS_DETECTED;
                                article := articles_section;
                                explanation := explanation;
                                guidance := guidance;
                                confidence := 0.95%float |} ])
                  end
              end
          end
        else inr ([] ++ [ no_violation_record ]) in
      match violations with
      | inl e => inl e
      | inr violations =>
          inr {| violations := violations;
                 response_summary :=
                   {| total_violations :=
                        length (filter (fun v => str_eqb (status v) STATUS_DETECTED)
                                       violations);
                      risk_level := if has_violation then lit "High" else lit "Low";
                      recommendations :=
                        [ if has_violation
                          then lit "Consult with a legal advisor for detailed guidance"
                          else lit "Continue monitoring the situation" ] |};
                 raw_analysis := analysis_text |}
      end
  end.

(** ** Model selection, initialisation and the two endpoints *)

Definition preferred : list str :=
  [ lit "models/gemini-2.5-flash";
    lit "models/gemini-1.5-flash";
    lit "models/gemini-1.5-pro";
    lit "models/gemini-pro" ].

(** [x or y] on two capability values. *)
Definition truthy (s : Supported) : bool :=
  match s with
  | Absent => false
  | Items [] => false
  | Items (_ :: _) => true
  | Single [] => false
  | Single (_ :: _) => true
  end.

Definition py_or (x y : Supported) : Supported := if truthy x then x else y.

(** Line 102, on one capability label. *)
Definition label_matches (item : str) : bool :=
  contains (lit "generate") (lower item) || contains (lit "content") (lower item)
  || contains (lit "text") (lower item) || contains (lit "chat") (lower item).

Definition supports_generate (m : ModelEntry) : bool :=
  match py_or (supported_generation_methods m) (supportedMethods m) with
  | Absent => false
  | Items s => existsb label_matches s
  | Single v => existsb label_matches [v]
  end.

Definition models_list (models_info : ModelsInfo) : Listing :=
  match models_info with
  | DictWithModels v => v
  | DictWithoutModels => NotAList
  | Plain v => v
  end.

(** Lines 88-107: the names of the listed models that are kept. *)
Definition available (models_info : ModelsInfo) : list str :=
  match models_list models_info with
  | NotAList => []
  | AList ms =>
      flat_map
        (fun m =>
           match name m with
           | Some (c :: n) => if supports_generate m then [c :: n] else []
           | _ => []
           end) ms
  end.

(** Lines 109-118. *)
Definition pick_available (avail : list str) : option str :=
  match avail with
  | [] => None
  | first :: _ =>
      match find (fun p => existsb (str_eqb p) avail) preferred with
      | Some p => Some p
      | None => Some first
      end
  end.

Definition NO_MODEL : PyError :=
  {| cls := Exception_;
     message := lit "No suitable generative model available. Run ListModels to see options." |}.

Definition attribute_error (attr : string) : PyError :=
  {| cls := AttributeError;
     message := lit "'NoneType' object has no attribute '" ++ lit attr ++ lit "'" |}.

Definition not_subscriptable : PyError :=
  {| cls := TypeError; message := lit "'NoneType' object is not subscriptable" |}.

Definition not_iterable : PyError :=
  {| cls := TypeError; message := lit "argument of type 'NoneType' is not iterable" |}.

Definition set_articles (g : Globals) (v : list Article) : Globals :=
  {| embed_model := embed_model g; index := index g;
     articles := Some v; gemini := gemini g |}.
Definition set_embed_model (g : Globals) (v : str -> Vec) : Globals :=
  {| embed_model := Some v; index := index g;
     articles := articles g; gemini := gemini g |}.
Definition set_index (g : Globals) (v : IndexFlatL2) : Globals :=
  {| embed_model := embed_model g; index := Some v;
     articles := articles g; gemini := gemini g |}.
Definition set_gemini (g : Globals) (v : str) : Globals :=
  {| embed_model := embed_model g; index := index g;
     articles := articles g; gemini := Some v |}.

(** Line 54: the text embedded for one article. *)
Definition corpus_text (a : Article) : str :=
  article_id a ++ lit " - " ++ get_or_empty (summary a)
  ++ lit " - " ++ get_or_empty (text a).

Section Pipeline.

Variable W : Type.
Variable sv : Services W.

(** Lines 74-81: the first preferred identifier whose instantiation
    does not raise. *)
Fixpoint try_preferred (ps : list str) : M W (option str) :=
  match ps with
  | [] => ret None
  | p :: ps' =>
      r <- attempt (GenerativeModel sv p) ;;
      match r with
      | inr _ => ret (Some p)
      | inl _ => try_preferred ps'
      end
  end.

(** Lines 84-120: ListModels discovery; a failing call leaves no name. *)
Definition discover : M W (option str) :=
  r <- attempt (list_models sv) ;;
  match r with
  | inr models_info => ret (pick_available (available models_info))
  | inl _ => ret None
  end.

(** Lines 72-123. *)
Definition select_model : M W str :=
  model_name <- try_preferred preferred ;;
  model_name <- match model_name with
                | Some p => ret (Some p)
                | None => discover
                end ;;
  match model_name with
  | Some n => ret n
  | None => raise (Uncaught NO_MODEL)
  end.

Definition init_ai : M W unit :=
  g <- get_globals ;;
  match embed_model g with
  | Some _ => ret tt
  | None =>
      arts <- call (load_corpus sv) ;;
      g <- get_globals ;; put_globals (set_articles g arts) ;;
      enc <- call (SentenceTransformer sv (lit "all-MiniLM-L6-v2")) ;;
      g <- get_globals ;; put_globals (set_embed_model g enc) ;;
      let embeddings := map enc (map corpus_text arts) in
      (* embeddings.shape[1] *)
      dim <- match embeddings with
             | row :: _ => ret (length row)
             | [] => raise (Uncaught {| cls := IndexError;
                                        message := lit "tuple index out of range" |})
             end ;;
      g <- get_globals ;;
      put_globals (set_index g (index_add {| dimension := dim; rows := [] |} embeddings)) ;;
      model_name <- select_model ;;
      call (GenerativeModel sv model_name) ;;
      g <- get_globals ;; put_globals (set_gemini g model_name)
  end.

(** [[articles[i] for i in indices[0]]] *)
Fixpoint lookup_articles (arts : option (list Article)) (indices : list Z)
  : PyError + list Article :=
  match indices with
  | [] => inr []
  | i :: rest =>
      match arts with
      | None => inl not_subscriptable
      | Some l =>
          match item l i with
          | inl e => inl e
          | inr a =>
              match lookup_articles arts rest with
              | inl e => inl e
              | inr more => inr (a :: more)
              end
          end
      end
  end.

Definition search_relevant_articles (user_input : str) (top_k : nat)
  : M W (list Article) :=
  g <- get_globals ;;
  match embed_model g with
  | None => raise (Uncaught (attribute_error "encode"))
  | Some encode =>
      let query_embedding := encode user_input in
      match index g with
      | None => raise (Uncaught (attribute_error "search"))
      | Some ix =>
          let indices := index_search ix query_embedding top_k in
          match lookup_articles (articles g) indices with
          | inl e => raise (Uncaught e)
          | inr found => ret found
          end
      end
  end.

(** Lines 222-223 and 243-244, the body of the [try]. *)
Definition generate (prompt : str) : M W (PyError + option str) :=
  g <- get_globals ;;
  match gemini g with
  | None => ret (inl (attribute_error "generate_content"))
  | Some model => attempt (generate_content sv model prompt)
  end.

Definition analyze (data : ScenarioInput) : M W AnalyzeResponse :=
  init_ai ;;
  matched_articles <- search_relevant_articles (scenario data) 3 ;;
  let prompt := build_prompt (scenario data) matched_articles in
  r <- generate prompt ;;
  match r with
  | inl e => raise (HTTPException 500 (message e))
  | inr analysis_text => ret {| analysis := analysis_text |}
  end.

Definition screen_scenario (data : ScenarioInput) : M W ScreenResponse :=
  init_ai ;;
  matched_articles <- search_relevant_articles (scenario data) 5 ;;
  let prompt := build_prompt (scenario data) matched_articles in
  r <- generate prompt ;;
  match r with
  | inl e => raise (HTTPException 500 (message e))
  | inr analysis_text =>
      match normalize_analysis_text analysis_text with
      | None => raise (Uncaught not_iterable)
      | Some analysis_text =>
          match parse_response analysis_text with
          | inl e => raise (Uncaught e)
          | inr response => ret response
          end
      end
  end.

End Pipeline.

(** ** Vocabulary of the properties *)

(** [sub] occurs in [s] at offset [n]. *)
Definition occurs_at (sub s : str) (n : nat) : Prop :=
  exists h t, s = h ++ sub ++ t /\ length h = n.

Definition occurs (sub s : str) : Prop := exists n, occurs_at sub s n.

(** [tail] is what follows the first occurrence of [sep] in [s]. *)
Definition after_first (sep s tail : str) : Prop :=
  exists h, s = h ++ sep ++ tail /\ forall m, occurs_at sep s m -> length h <= m.

(** [piece] is [s] up to its first occurrence of [sep], all of [s] when
    there is none. *)
Definition before_first (sep s piece : str) : Prop :=
  (~ occurs sep s /\ piece = s)
  \/ (exists rest, s = piece ++ sep ++ rest
                   /\ forall m, occurs_at sep s m -> length piece <= m).

(** The status line says Yes: the segment that follows the first
    "Violation Status:" (up to the next one, if any) has "Yes" on its
    first line. *)
Definition status_says_yes (analysis_text : str) : Prop :=
  exists tail segment line,
    after_first HDR_STATUS analysis_text tail
    /\ before_first HDR_STATUS tail segment
    /\ before_first [LF] segment line
    /\ occurs (lit "Yes") line.

(** The request gets as far as the reasoner call: initialisation and the
    retrieval of [k] articles succeed, and [prompt] is what [build_prompt]
    renders from them. *)
Definition reaches_reasoner {W : Type} (sv : Services W) (k : nat)
    (data : ScenarioInput) (g : Globals) (w : W)
    (prompt : str) (g2 : Globals) (w2 : W) : Prop :=
  exists g1 w1 matched_articles,
    init_ai sv g w = (Ok tt, g1, w1)
    /\ @search_relevant_articles W (scenario data) k g1 w1
       = (Ok matched_articles, g2, w2)
    /\ prompt = build_prompt (scenario data) matched_articles.


(** ** Retrieval, in the words of the specification *)

(** The squared distance from the query to row [i] of the index. *)
Definition distance_to (ix : IndexFlatL2) (q : Vec) (i : nat) : Z :=
  sqdist q (nth i (rows ix) []).

Definition by_distance (a b : Z * nat) : Prop := (fst a <= fst b)%Z.

(** [labels] are [k] distinct rows of the index, nearest first, and no
    other row is nearer than any of them. *)
Definition k_nearest (ix : IndexFlatL2) (q : Vec) (k : nat) (labels : list nat)
  : Prop :=
  length labels = k
  /\ NoDup labels
  /\ (forall i, In i labels -> i < length (rows ix))
  /\ StronglySorted (fun i j => (distance_to ix q i <= distance_to ix q j)%Z) labels
  /\ (forall i j, In i labels -> j < length (rows ix) -> ~ In j labels ->
                  (distance_to ix q i <= distance_to ix q j)%Z).

(** ** Model selection, in the words of the specification *)

Section Selection.

Variable W : Type.
Variable sv : Services W.

(** Going through the identifiers in order, [r] is the first one whose
    instantiation does not raise ([None] when every one raises); [w'] is
    the world after these attempts. *)
Inductive first_instantiable : list str -> W -> option str -> W -> Prop :=
| fi_none (w : W) : first_instantiable [] w None w
| fi_hit (p : str) (ps : list str) (w w' : W) (u : unit) :
    GenerativeModel sv p w = (inr u, w') ->
    first_instantiable (p :: ps) w (Some p) w'
| fi_miss (p : str) (ps : list str) (w w1 w' : W) (e : PyError) (r : option str) :
    GenerativeModel sv p w = (inl e, w1) ->
    first_instantiable ps w1 r w' ->
    first_instantiable (p :: ps) w r w'.

End Selection.

Definition listed (info : ModelsInfo) : list ModelEntry :=
  match models_list info with AList ms => ms | NotAList => [] end.

(** The capability labels of a listed model. *)
Definition labels (m : ModelEntry) : list str :=
  match py_or (supported_generation_methods m) (supportedMethods m) with
  | Absent => []
  | Items l => l
  | Single v => [v]
  end.

Definition CAPABILITY_WORDS : list str :=
  [lit "generate"; lit "content"; lit "text"; lit "chat"].

(** The label contains one of the four words, case-insensitively. *)
Definition mentions_capability (label : str) : Prop :=
  exists word, In word CAPABILITY_WORDS /\ occurs word (lower label).

(** The listed model named [n] is kept. *)
Definition kept (info : ModelsInfo) (n : str) : Prop :=
  exists m, In m (listed info) /\ name m = Some n /\ n <> []
            /\ exists label, In label (labels m) /\ mentions_capability label.

(** [r] is the choice among the kept names [avail]: the first identifier
    of the preferred list found among them if there is one, else the first
    kept name; nothing when none is kept. *)
Definition chosen (avail : list str) (r : option str) : Prop :=
  match r with
  | None => avail = []
  | Some n =>
      (exists pre post, preferred = pre ++ n :: post /\ In n avail
                        /\ forall p, In p pre -> ~ In p avail)
      \/ ((forall p, In p preferred -> ~ In p avail) /\ hd_error avail = Some n)
  end.

(** Model selection from world [w]: the name selected, if any, and the
    world afterwards. *)
Definition selects {W : Type} (sv : Services W) (w : W) (r : option str) (w' : W)
  : Prop :=
  exists p0 w1,
    first_instantiable sv preferred w p0 w1
    /\ match p0 with
       | Some p => r = Some p /\ w' = w1
       | None =>
           match list_models sv w1 with
           | (inl _, w2) => r = None /\ w' = w2
           | (inr info, w2) => w' = w2 /\ chosen (available info) r
           end
       end.

(** The globals when model selection starts, in a first initialisation
    that loaded [arts] and the encoder [enc]. *)
Definition before_selection (g g2 : Globals) (arts : list Article)
    (enc : str -> Vec) : Prop :=
  articles g2 = Some arts
  /\ embed_model g2 = Some enc
  /\ (exists d, index g2 = Some {| dimension := d;
                                   rows := map enc (map corpus_text arts) |})
  /\ gemini g2 = gemini g.

(** ** Scripted worlds, for concrete runs

    The world state counts the calls made to [generate_content]. *)

Record Script : Type := {
  script_corpus : PyError + list Article;
  script_encode : str -> Vec;
  script_instantiable : str -> bool;
  script_listing : PyError + ModelsInfo;
  script_reply : nat -> PyError + option str
}.

Definition provider_error (msg : string) : PyError :=
  {| cls := ProviderError; message := lit msg |}.

Definition scripted (s : Script) : Services nat :=
  {| load_corpus := fun w => (script_corpus s, w);
     SentenceTransformer := fun _ w => (inr (script_encode s), w);
     GenerativeModel := fun n w =>
       (if script_instantiable s n then inr tt
        else inl (provider_error "model is not available"), w);
     list_models := fun w => (script_listing s, w);
     generate_content := fun _ _ w => (script_reply s w, S w) |}.

Definition art12 : Article :=
  {| article_id := lit "12";
     summary := Some (lit "Right to equality");
     text := Some (lit "All persons are equal before the law.") |}.

Definition art13 : Article :=
  {| article_id := lit "13";
     summary := Some (lit "Freedom from arbitrary arrest and detention");
     text := None |}.

Definition art14 : Article :=
  {| article_id := lit "14";
     summary := None;
     text := Some (lit "Freedom of speech, assembly, association and movement.") |}.

(** A toy encoder: one coordinate, the length of the text. *)
Definition length_encoder (s : str) : Vec := [Z.of_nat (length s)].

Definition detained : ScenarioInput :=
  {| scenario := lit "Police detained a journalist without a warrant for 48 hours" |}.

Definition paid_bill : ScenarioInput :=
  {| scenario := lit "A citizen paid their electricity bill on time" |}.

Definition reply_yes : str :=
  lit "Violation Status: Yes" ++ [LF; LF]
  ++ lit "Violated Article(s):" ++ [LF]
  ++ lit "ARTICLE 13 " ++ [EN_DASH] ++ lit " Freedom from arbitrary arrest" ++ [LF; LF]
  ++ lit "Explanation:" ++ [LF]
  ++ lit "Detention without a warrant is arbitrary." ++ [LF; LF]
  ++ lit "What the person can do next:" ++ [LF]
  ++ lit "File a petition under Article 17.".

Definition reply_no : str :=
  lit "Violation Status: No" ++ [LF; LF]
  ++ lit "Violated Article(s):" ++ [LF]
  ++ lit "None" ++ [LF; LF]
  ++ lit "Explanation:" ++ [LF]
  ++ lit "Paying a bill on time does not engage any fundamental right, and the long discussion goes on." ++ [LF; LF]
  ++ lit "What the person can do next:" ++ [LF]
  ++ lit "Keep the receipt and several other suggestions.".

(** A reply whose status line is followed by a backslash: the only kind
    the patterns of the normaliser recognise. *)
Definition reply_backslash : str := lit "Violation Status:\No\b".


(** The usual world: three articles, the first preferred model
    instantiates, the reasoner answers [reply]. *)
Definition world_ok (reply : PyError + option str) : Services nat :=
  scripted {| script_corpus := inr [art12; art13; art14];
              script_encode := length_encoder;
              script_instantiable := fun _ => true;
              script_listing := inr (Plain NotAList);
              script_reply := fun _ => reply |}.

(** The reasoner fails on its first call and would answer on a second. *)
Definition world_fails_once : Services nat :=
  scripted {| script_corpus := inr [art12; art13; art14];
              script_encode := length_encoder;
              script_instantiable := fun _ => true;
              script_listing := inr (Plain NotAList);
              script_reply := fun n =>
                match n with
                | O => inl (provider_error "429 quota exceeded")
                | S _ => inr (Some reply_yes)
                end |}.

(** A corpus of two articles. *)
Definition world_two_articles : Services nat :=
  scripted {| script_corpus := inr [art13; art12];
              script_encode := length_encoder;
              script_instantiable := fun _ => true;
              script_listing := inr (Plain NotAList);
              script_reply := fun _ => inr (Some reply_yes) |}.

Definition generating (n : string) : ModelEntry :=
  {| name := Some (lit n);
     supported_generation_methods := Items [lit "generateContent"; lit "countTokens"];
     supportedMethods := Absent |}.

(** No preferred identifier instantiates; the listing offers models. *)
Definition world_listing (instantiable : str -> bool) (ms : list ModelEntry)
  : Services nat :=
  scripted {| script_corpus := inr [art12; art13; art14];
              script_encode := length_encoder;
              script_instantiable := instantiable;
              script_listing := inr (Plain (AList ms));
              script_reply := fun _ => inr (Some reply_yes) |}.

(** ** Further vocabulary *)

(** [i] is a valid subscript of a Python list of length [n]. *)
Definition in_range (n : nat) (i : Z) : Prop :=
  (- Z.of_nat n <= i < Z.of_nat n)%Z.

(** The position [l[i]] reads, negative subscripts counting from the end. *)
Definition py_position (n : nat) (i : Z) : nat :=
  Z.to_nat (if (i <? 0)%Z then Z.of_nat n + i else i).

(** The globals after a first initialisation has loaded [arts] and [enc]
    and built the index (lines 48-61). *)
Definition selection_globals (g : Globals) (arts : list Article)
    (enc : str -> Vec) : Globals :=
  set_index (set_embed_model (set_articles g arts) enc)
    (index_add {| dimension := length (hd [] (map enc (map corpus_text arts)));
                  rows := [] |}
               (map enc (map corpus_text arts))).

(** The corpus, the encoder and the index are in place and agree: the
    corpus is not empty and row i of the index embeds article i. *)
Definition corpus_ready (g : Globals) (enc : str -> Vec) (ix : IndexFlatL2)
    (arts : list Article) : Prop :=
  embed_model g = Some enc
  /\ index g = Some ix
  /\ articles g = Some arts
  /\ rows ix = map enc (map corpus_text arts)
  /\ arts <> [].

(** The text has no white space at either end. *)
Definition trimmed (s : str) : Prop :=
  (forall c rest, s = c :: rest -> isspace c = false)
  /\ (forall front c, s = front ++ [c] -> isspace c = false).

(** The corpus file is missing. *)
Definition world_no_corpus : Services nat :=
  scripted {| script_corpus :=
                inl {| cls := OSError;
                       message := lit "No such file or directory" |};
              script_encode := length_encoder;
              script_instantiable := fun _ => true;
              script_listing := inr (Plain NotAList);
              script_reply := fun _ => inr (Some reply_yes) |}.

(** No model can be instantiated and the provider lists none. *)
Definition world_no_model : Services nat := world_listing (fun _ => false) [].

(** The header of the next-steps section followed by a backslash: the
    literal start of [RE_NEXT]. *)
Definition NEXT_MARK : str := HDR_NEXT ++ [BACKSLASH].

(** The text of a reply with the code's status pattern after lines
    190-201: the status line rewritten and the explanation note put in. *)
Definition after_explanation_step (t : str) : str :=
  let t1 := re_sub_first RE_STATUS_LINE (lit "Violation Status: No") t in
  if re_found RE_EXPLANATION t1 then
    re_sub RE_EXPLANATION (HDR_EXPLANATION ++ [LF] ++ MSG_EXPLANATION) t1
  else
    strip t1 ++ lit "\n\n" ++ HDR_EXPLANATION ++ [LF] ++ MSG_EXPLANATION.

(** A reply with the code's status pattern and a next-steps section of
    the kind [RE_NEXT] recognises. *)
Definition reply_backslash_next : str :=
  lit "Violation Status:\No\b" ++ [LF]
  ++ lit "What the person can do next:\ss ask a lawyer" ++ [LF]
  ++ lit "and keep every document.".

(** * Properties *)

Unset Implicit Arguments.

(** ** Python string primitives *)

Lemma strip_prefix_Some (p s t : str) :
  strip_prefix p s = Some t <-> s = p ++ t.
Proof.
  revert s; induction p as [|x p IH]; intros s; simpl.
  - split; congruence.
  - destruct s as [|y s]; [split; discriminate|].
    destruct (N.eqb_spec x y) as [->|Hxy].
    + rewrite IH. split; [intros ->; reflexivity | intros [= ->]; reflexivity].
    + split; [discriminate | intros [= E _]; congruence].
Qed.

Lemma strip_prefix_app (p t : str) : strip_prefix p (p ++ t) = Some t.
Proof. apply strip_prefix_Some; reflexivity. Qed.

Lemma partition_eq (sep s : str) :
  partition sep s =
  match strip_prefix sep s with
  | Some tail => Some ([], tail)
  | None =>
      match s with
      | [] => None
      | c :: s' =>
          match partition sep s' with
          | Some (head, tail) => Some (c :: head, tail)
          | None => None
          end
      end
  end.
Proof. destruct s; reflexivity. Qed.

Lemma occurs_at_0 (sep s : str) :
  occurs_at sep s 0 <-> exists t, strip_prefix sep s = Some t.
Proof.
  split.
  - intros (h & t & E & L). destruct h; [|discriminate].
    exists t. apply strip_prefix_Some. exact E.
  - intros (t & E). apply strip_prefix_Some in E. exists [], t. auto.
Qed.

Lemma occurs_at_S (sep : str) (c : char) (s : str) (m : nat) :
  occurs_at sep (c :: s) (S m) <-> occurs_at sep s m.
Proof.
  split.
  - intros (h & t & E & L). destruct h as [|c' h]; [discriminate|].
    injection E as _ E. injection L as L. exists h, t. auto.
  - intros (h & t & E & L). exists (c :: h), t. subst. auto.
Qed.

Lemma partition_Some (sep s h t : str) :
  partition sep s = Some (h, t) ->
  s = h ++ sep ++ t /\ forall m, occurs_at sep s m -> length h <= m.
Proof.
  revert h t; induction s as [|c s IH]; intros h t; rewrite partition_eq.
  - destruct (strip_prefix sep []) eqn:E; [|discriminate].
    intros [= <- <-]. apply strip_prefix_Some in E. split; [exact E|simpl; lia].
  - destruct (strip_prefix sep (c :: s)) eqn:E.
    + intros [= <- <-]. apply strip_prefix_Some in E. split; [exact E|simpl; lia].
    + destruct (partition sep s) as [[h' t']|] eqn:P; [|discriminate].
      intros [= <- <-]. destruct (IH _ _ eq_refl) as [-> Hmin].
      split; [reflexivity|].
      intros [|m] Hm.
      * apply occurs_at_0 in Hm. destruct Hm as [t0 Ht0]. congruence.
      * apply occurs_at_S in Hm. apply Hmin in Hm. simpl. lia.
Qed.

Lemma partition_None (sep s : str) :
  partition sep s = None -> ~ occurs sep s.
Proof.
  induction s as [|c s IH]; rewrite partition_eq.
  - destruct (strip_prefix sep []) eqn:E; [discriminate|].
    intros _ ([|m] & Hm).
    + apply occurs_at_0 in Hm. destruct Hm as [t Ht]. congruence.
    + destruct Hm as (h & t & E' & L). destruct h; discriminate.
  - destruct (strip_prefix sep (c :: s)) eqn:E; [discriminate|].
    destruct (partition sep s) as [[h' t']|] eqn:P; [discriminate|].
    intros _ ([|m] & Hm).
    + apply occurs_at_0 in Hm. destruct Hm as [t Ht]. congruence.
    + apply occurs_at_S in Hm. apply IH; [reflexivity|]. exists m. exact Hm.
Qed.

Lemma contains_true (sub s : str) : contains sub s = true <-> occurs sub s.
Proof.
  unfold contains. destruct (partition sub s) as [[h t]|] eqn:P.
  - split; [intros _|reflexivity].
    apply partition_Some in P. destruct P as [E _].
    exists (length h), h, t. auto.
  - split; [discriminate|]. intros H. apply partition_None in P. contradiction.
Qed.

Lemma contains_false (sub s : str) : contains sub s = false <-> ~ occurs sub s.
Proof.
  rewrite <- contains_true. destruct (contains sub s); split; congruence.
Qed.

Lemma app_same_length (A : Type) (a b x y : list A) :
  length a = length b -> a ++ x = b ++ y -> a = b /\ x = y.
Proof.
  revert b; induction a as [|c a IH]; intros [|d b] L E; try discriminate.
  - auto.
  - injection L as L. injection E as -> E. destruct (IH _ L E) as [-> ->]. auto.
Qed.

(** The first occurrence is where [partition] cuts. *)
Lemma after_first_partition (sep s tail : str) :
  after_first sep s tail <-> exists h, partition sep s = Some (h, tail).
Proof.
  split.
  - intros (h & E & Hmin).
    destruct (partition sep s) as [[h' t']|] eqn:P.
    + destruct (partition_Some _ _ _ _ P) as [E' Hmin'].
      assert (L : length h = length h').
      { apply Nat.le_antisymm.
        - apply Hmin. exists h', t'. auto.
        - apply Hmin'. exists h, tail. auto. }
      rewrite E in E'. destruct (app_same_length _ _ _ _ _ L E') as [-> E2].
      apply app_inv_head in E2. subst t'. exists h'. reflexivity.
    + exfalso. apply (partition_None _ _ P). exists (length h), h, tail. auto.
  - intros (h & P). apply partition_Some in P. exists h. exact P.
Qed.

Lemma before_first_partition (sep s piece : str) :
  before_first sep s piece <->
  piece = first_piece sep s.
Proof.
  unfold first_piece. split.
  - intros [[Hno ->] | (rest & E & Hmin)].
    + destruct (partition sep s) as [[h t]|] eqn:P; [|reflexivity].
      exfalso. apply Hno. apply contains_true. unfold contains. rewrite P. reflexivity.
    + assert (A : after_first sep s rest) by (exists piece; auto).
      apply after_first_partition in A. destruct A as (h & P). rewrite P.
      apply partition_Some in P. destruct P as [E' Hmin'].
      assert (L : length piece = length h).
      { apply Nat.le_antisymm.
        - apply Hmin. exists h, rest. auto.
        - apply Hmin'. exists piece, rest. auto. }
      rewrite E in E'. destruct (app_same_length _ _ _ _ _ L E') as [-> _].
      reflexivity.
  - intros ->. destruct (partition sep s) as [[h t]|] eqn:P.
    + right. exists t. apply partition_Some. exact P.
    + left. split; [apply partition_None; exact P | reflexivity].
Qed.

(** *** [split]: the fuel is enough *)

Lemma partition_nil_nonempty (sep : str) : sep <> [] -> partition sep [] = None.
Proof. destruct sep; [congruence|reflexivity]. Qed.

Lemma partition_shorter (sep s h t : str) :
  sep <> [] -> partition sep s = Some (h, t) -> length t < length s.
Proof.
  intros Hsep P. apply partition_Some in P. destruct P as [-> _].
  rewrite !length_app. destruct sep; [congruence|simpl; lia].
Qed.

Lemma split_fuel_enough (sep : str) :
  sep <> [] ->
  forall n m s, length s <= n -> length s <= m ->
                split_fuel n sep s = split_fuel m sep s.
Proof.
  intros Hsep. induction n as [|n IH]; intros m s Hn Hm.
  - destruct s; [|simpl in Hn; lia].
    destruct m; cbn [split_fuel]; [reflexivity|].
    rewrite partition_nil_nonempty by assumption. reflexivity.
  - destruct m as [|m].
    + destruct s; [|simpl in Hm; lia]. cbn [split_fuel].
      rewrite partition_nil_nonempty by assumption. reflexivity.
    + cbn [split_fuel]. destruct (partition sep s) as [[h t]|] eqn:P; [|reflexivity].
      pose proof (partition_shorter _ _ _ _ Hsep P). f_equal. apply IH; lia.
Qed.

(** The defining equation of [str.split]. *)
Lemma split_eq (sep s : str) :
  sep <> [] ->
  split sep s =
  match partition sep s with
  | None => [s]
  | Some (h, t) => h :: split sep t
  end.
Proof.
  intros Hsep. unfold split. destruct s as [|c s].
  - cbn [length split_fuel]. rewrite partition_nil_nonempty by assumption. reflexivity.
  - cbn [length split_fuel].
    destruct (partition sep (c :: s)) as [[h t]|] eqn:P; [|reflexivity].
    pose proof (partition_shorter _ _ _ _ Hsep P) as L. simpl in L.
    f_equal. apply split_fuel_enough; [assumption|lia|lia].
Qed.

Lemma split_head (sep s : str) :
  sep <> [] ->
  exists rest, split sep s = first_piece sep s :: rest.
Proof.
  intros Hsep. unfold first_piece. rewrite split_eq by assumption.
  destruct (partition sep s) as [[h t]|]; eauto.
Qed.

Lemma item_0 (A : Type) (a : A) (l : list A) : item (a :: l) 0 = inr a.
Proof.
  unfold item, py_index. cbn [length].
  destruct (0 <=? 0)%Z eqn:E1; [|discriminate].
  destruct (0 <? Z.of_nat (S (length l)))%Z eqn:E2; [reflexivity|].
  apply Z.ltb_ge in E2. lia.
Qed.

Lemma item_1 (A : Type) (a b : A) (l : list A) : item (a :: b :: l) 1 = inr b.
Proof.
  unfold item, py_index. cbn [length].
  destruct (0 <=? 1)%Z eqn:E1; [|discriminate].
  destruct (1 <? Z.of_nat (S (S (length l))))%Z eqn:E2; [reflexivity|].
  apply Z.ltb_ge in E2. lia.
Qed.

(** [s.split(sep)[0]] *)
Lemma split_item_0 (sep s : str) :
  sep <> [] ->
  item (split sep s) 0 = inr (first_piece sep s).
Proof.
  intros Hsep. destruct (split_head sep s Hsep) as [rest ->]. apply item_0.
Qed.

(** [s.split(sep)[1]] when [sep in s] *)
Lemma split_item_1 (sep s h t : str) :
  sep <> [] ->
  partition sep s = Some (h, t) ->
  item (split sep s) 1 = inr (first_piece sep t).
Proof.
  intros Hsep P. rewrite split_eq, P by assumption.
  destruct (split_head sep t Hsep) as [rest ->]. apply item_1.
Qed.

(** ** The response parser *)

Lemma lit_nonempty_status : HDR_STATUS <> [].
Proof. discriminate. Qed.

Lemma lit_nonempty_articles : HDR_ARTICLES <> [].
Proof. discriminate. Qed.

Lemma lit_nonempty_explanation : HDR_EXPLANATION <> [].
Proof. discriminate. Qed.

Lemma lit_nonempty_next : HDR_NEXT <> [].
Proof. discriminate. Qed.

Lemma newline_nonempty : [LF] <> [].
Proof. discriminate. Qed.

(** Line 252 never raises, and this is what it computes. *)
Lemma has_violation_eq (analysis_text : str) :
  has_violation analysis_text =
  inr match partition HDR_STATUS analysis_text with
      | Some (_, tail) =>
          contains (lit "Yes") (first_piece [LF] (first_piece HDR_STATUS tail))
      | None => false
      end.
Proof.
  unfold has_violation, contains at 1.
  destruct (partition HDR_STATUS analysis_text) as [[h tail]|] eqn:P; [|reflexivity].
  rewrite (split_item_1 _ _ _ _ lit_nonempty_status P).
  rewrite (split_item_0 _ _ newline_nonempty). reflexivity.
Qed.

(** C3. [has_violation] is true exactly when the text contains
    "Violation Status:" and the first line of the segment that follows its
    first occurrence contains "Yes"; a text without "Violation Status:"
    gives false; the expression never raises. *)
Theorem has_violation_iff_status_says_yes (analysis_text : str) :
  (has_violation analysis_text = inr true <-> status_says_yes analysis_text)
  /\ (~ occurs HDR_STATUS analysis_text -> has_violation analysis_text = inr false)
  /\ (exists b, has_violation analysis_text = inr b).
Proof.
  rewrite has_violation_eq. split; [|split].
  - split.
    + destruct (partition HDR_STATUS analysis_text) as [[h tail]|] eqn:P;
        [|discriminate].
      intros [= Hyes].
      exists tail, (first_piece HDR_STATUS tail),
        (first_piece [LF] (first_piece HDR_STATUS tail)).
      repeat split.
      * apply after_first_partition. exists h. exact P.
      * apply before_first_partition. reflexivity.
      * apply before_first_partition. reflexivity.
      * apply contains_true. exact Hyes.
    + intros (tail & segment & line & Ha & Hs & Hl & Hyes).
      apply after_first_partition in Ha. destruct Ha as [h P]. rewrite P.
      apply before_first_partition in Hs. apply before_first_partition in Hl.
      subst segment line. apply contains_true in Hyes. rewrite Hyes. reflexivity.
  - intros Hno. apply contains_false in Hno. unfold contains in Hno.
    destruct (partition HDR_STATUS analysis_text) as [[h tail]|];
      [discriminate|reflexivity].
  - eexists. reflexivity.
Qed.

Lemma section_between_eq (a b t : str) :
  a <> [] -> b <> [] ->
  section_between a b t =
  inr match partition a t with
      | Some (_, tail) => strip (first_piece b (first_piece a tail))
      | None => []
      end.
Proof.
  intros Ha Hb. unfold section_between, contains.
  destruct (partition a t) as [[h tail]|] eqn:P; [|reflexivity].
  rewrite (split_item_1 _ _ _ _ Ha P), (split_item_0 _ _ Hb). reflexivity.
Qed.

Lemma section_after_eq (a t : str) :
  a <> [] ->
  section_after a t =
  inr match partition a t with
      | Some (_, tail) => strip (first_piece a tail)
      | None => []
      end.
Proof.
  intros Ha. unfold section_after, contains.
  destruct (partition a t) as [[h tail]|] eqn:P; [|reflexivity].
  rewrite (split_item_1 _ _ _ _ Ha P). reflexivity.
Qed.



Lemma has_violation_iff_status_says_yes_run :
  ~ occurs HDR_STATUS (lit "The reply has no status line.")
  /\ has_violation (lit "The reply has no status line.") = inr false.
Proof.
  assert (H : ~ occurs HDR_STATUS (lit "The reply has no status line.")).
  { apply contains_false. vm_compute. reflexivity. }
  split; [exact H|].
  exact (proj1 (proj2 (has_violation_iff_status_says_yes
                         (lit "The reply has no status line."))) H).
Defined.

(** A second header on the status line ends the segment: the "Yes" after
    it is not looked at. *)
Lemma has_violation_second_header :
  has_violation (lit "Violation Status: maybe Violation Status: Yes") = inr false.
Proof. vm_compute. reflexivity. Qed.

(** The parser never raises. *)
Lemma parse_response_total (t : str) : exists resp, parse_response t = inr resp.
Proof.
  unfold parse_response. rewrite has_violation_eq.
  rewrite (section_between_eq _ _ t lit_nonempty_articles lit_nonempty_explanation).
  rewrite (section_between_eq _ _ t lit_nonempty_explanation lit_nonempty_next).
  rewrite (section_after_eq _ t lit_nonempty_next).
  match goal with |- context [if ?b then _ else _] => destruct b end;
    eexists; reflexivity.
Qed.

(** What a parsed response looks like, in either branch. *)
Lemma parse_response_inv (t : str) (resp : ScreenResponse) :
  parse_response t = inr resp ->
  exists b v,
    has_violation t = inr b
    /\ raw_analysis resp = t
    /\ violations resp = [v]
    /\ (if b
        then status v = STATUS_DETECTED
             /\ section_between HDR_ARTICLES HDR_EXPLANATION t = inr (article v)
             /\ section_between HDR_EXPLANATION HDR_NEXT t = inr (explanation v)
             /\ section_after HDR_NEXT t = inr (guidance v)
             /\ confidence v = 0.95%float
        else v = no_violation_record)
    /\ total_violations (response_summary resp) = (if b then 1 else 0)
    /\ risk_level (response_summary resp) = (if b then lit "High" else lit "Low").
Proof.
  unfold parse_response.
  destruct (has_violation t) as [e|b]; [discriminate|].
  destruct b.
  - destruct (section_between HDR_ARTICLES HDR_EXPLANATION t) as [e|a]; [discriminate|].
    destruct (section_between HDR_EXPLANATION HDR_NEXT t) as [e|x]; [discriminate|].
    destruct (section_after HDR_NEXT t) as [e|gd]; [discriminate|].
    intros [= <-]. eexists true, _. cbn. repeat split; reflexivity.
  - intros [= <-]. exists false, no_violation_record. cbn. repeat split; reflexivity.
Qed.

(** ** The two endpoints *)

Section Endpoints.

Variable W : Type.
Variable sv : Services W.

Lemma generate_bound (prompt model : str) (g : Globals) (w : W) :
  gemini g = Some model ->
  generate sv prompt g w
  = (Ok (fst (generate_content sv model prompt w)), g,
     snd (generate_content sv model prompt w)).
Proof.
  intros Hm. unfold generate, bind, get_globals, attempt. rewrite Hm.
  destruct (generate_content sv model prompt w); reflexivity.
Qed.

Lemma generate_unbound (prompt : str) (g : Globals) (w : W) :
  gemini g = None ->
  generate sv prompt g w = (Ok (inl (attribute_error "generate_content")), g, w).
Proof.
  intros Hm. unfold generate, bind, get_globals. rewrite Hm. reflexivity.
Qed.


(** [screen_scenario], once the reasoner call is reached. *)
Lemma screen_scenario_from_reasoner (data : ScenarioInput) (g : Globals) (w : W)
    (prompt : str) (g2 : Globals) (w2 : W) :
  reaches_reasoner sv 5 data g w prompt g2 w2 ->
  screen_scenario sv data g w =
  match generate sv prompt g2 w2 with
  | (Ok (inl e), g3, w3) => (Raise (HTTPException 500 (message e)), g3, w3)
  | (Ok (inr analysis_text), g3, w3) =>
      match normalize_analysis_text analysis_text with
      | None => (Raise (Uncaught not_iterable), g3, w3)
      | Some t =>
          match parse_response t with
          | inl e => (Raise (Uncaught e), g3, w3)
          | inr response => (Ok response, g3, w3)
          end
      end
  | (Raise f, g3, w3) => (Raise f, g3, w3)
  end.
Proof.
  intros (g1 & w1 & arts & Hi & Hs & ->).
  unfold screen_scenario, bind. rewrite Hi, Hs.
  destruct (generate sv _ g2 w2) as [[[[e|t]|f] g3] w3]; try reflexivity.
  destruct (normalize_analysis_text t) as [t'|]; [|reflexivity].
  destruct (parse_response t'); reflexivity.
Qed.

(** A response of [screen_scenario] is the parse of some text. *)
Lemma screen_scenario_inv (data : ScenarioInput) (g g' : Globals) (w w' : W)
    (resp : ScreenResponse) :
  screen_scenario sv data g w = (Ok resp, g', w') ->
  exists reply t,
    normalize_analysis_text reply = Some t /\ parse_response t = inr resp.
Proof.
  unfold screen_scenario, bind.
  destruct (init_ai sv g w) as [[[[]|f] g1] w1]; [|discriminate].
  destruct (search_relevant_articles _ _ g1 w1) as [[[arts|f] g2] w2];
    [|discriminate].
  destruct (generate sv _ g2 w2) as [[[[e|reply]|f] g3] w3];
    [discriminate| |discriminate].
  destruct (normalize_analysis_text reply) as [t|] eqn:N; [|discriminate].
  destruct (parse_response t) as [e|r] eqn:P; [discriminate|].
  intros [= <- _ _]. exists reply, t. auto.
Qed.

(** A response of [screen_scenario], traced back: the request reached the
    reasoner with a bound model, the reasoner replied, and the response is
    the parse of the normalised reply. *)
Lemma screen_scenario_trace (data : ScenarioInput) (g g' : Globals) (w w' : W)
    (resp : ScreenResponse) :
  screen_scenario sv data g w = (Ok resp, g', w') ->
  exists prompt w2 model reply t,
    reaches_reasoner sv 5 data g w prompt g' w2
    /\ gemini g' = Some model
    /\ generate_content sv model prompt w2 = (inr reply, w')
    /\ normalize_analysis_text reply = Some t
    /\ parse_response t = inr resp.
Proof.
  unfold screen_scenario, bind.
  destruct (init_ai sv g w) as [[[[]|f] g1] w1] eqn:I; [|discriminate].
  destruct (search_relevant_articles _ _ g1 w1) as [[[arts|f] g2] w2] eqn:S;
    [|discriminate].
  unfold generate, bind, get_globals, attempt, ret, raise.
  destruct (gemini g2) as [model|] eqn:M; [|discriminate].
  destruct (generate_content sv model _ w2) as [[e|reply] w3] eqn:G;
    [discriminate|].
  destruct (normalize_analysis_text reply) as [t|] eqn:N; [|discriminate].
  destruct (parse_response t) as [e|r] eqn:P; [discriminate|].
  intros [= <- <- <-].
  exists (build_prompt (scenario data) arts), w2, model, reply, t.
  split; [|auto]. exists g1, w1, arts. auto.
Qed.

End Endpoints.

Lemma low_is_not_high : lit "Low" <> lit "High".
Proof. discriminate. Qed.

(** C4. Every response of ScreenScenario is the parse of the text the
    reasoner replied, once normalised; it carries exactly one record;
    [total_violations] is 1 when [has_violation] holds of that text and 0
    otherwise; [risk_level] is "High" exactly when it holds, and "Low"
    otherwise. *)
Theorem screen_response_summary_invariant
    (W : Type) (sv : Services W) (data : ScenarioInput)
    (g g' : Globals) (w w' : W) (resp : ScreenResponse) :
  screen_scenario sv data g w = (Ok resp, g', w') ->
  exists prompt w2 model reply t b v,
    reaches_reasoner sv 5 data g w prompt g' w2
    /\ gemini g' = Some model
    /\ generate_content sv model prompt w2 = (inr reply, w')
    /\ normalize_analysis_text reply = Some t
    /\ has_violation t = inr b
    /\ raw_analysis resp = t
    /\ violations resp = [v]
    /\ total_violations (response_summary resp) = (if b then 1 else 0)
    /\ (risk_level (response_summary resp) = lit "High" <-> b = true)
    /\ (b = false -> risk_level (response_summary resp) = lit "Low").
Proof.
  intros H. apply screen_scenario_trace in H.
  destruct H as (prompt & w2 & model & reply & t & Hr & Hm & Hc & Hn & P).
  apply parse_response_inv in P.
  destruct P as (b & v & Hb & Hraw & Hv & _ & Htot & Hrisk).
  exists prompt, w2, model, reply, t, b, v.
  repeat split; try assumption.
  - intros Hhigh. destruct b; [reflexivity|].
    rewrite Hrisk in Hhigh. destruct (low_is_not_high Hhigh).
  - intros ->. exact Hrisk.
  - intros ->. exact Hrisk.
Qed.

Lemma screen_response_summary_invariant_run :
  exists resp g' w',
    screen_scenario (world_ok (inr (Some reply_yes))) detained initial_globals 0
    = (Ok resp, g', w')
    /\ exists prompt w2 model reply t b v,
        reaches_reasoner (world_ok (inr (Some reply_yes))) 5 detained
          initial_globals 0 prompt g' w2
        /\ gemini g' = Some model
        /\ generate_content (world_ok (inr (Some reply_yes))) model prompt w2
           = (inr reply, w')
        /\ normalize_analysis_text reply = Some t
        /\ has_violation t = inr b
        /\ raw_analysis resp = t
        /\ violations resp = [v]
        /\ total_violations (response_summary resp) = (if b then 1 else 0)
        /\ (risk_level (response_summary resp) = lit "High" <-> b = true)
        /\ (b = false -> risk_level (response_summary resp) = lit "Low").
Proof.
  eexists _, _, _. split.
  - vm_compute. reflexivity.
  - eapply (screen_response_summary_invariant nat
              (world_ok (inr (Some reply_yes))) detained initial_globals _ 0 _).
    vm_compute. reflexivity.
Defined.

(** C5. When [has_violation] is false the parser produces the single fixed
    record (status "No Violation", article "N/A", guidance "No immediate
    action required."), whatever the analysed text says, and so does every
    response of ScreenScenario. *)
Theorem no_violation_record_is_fixed :
  (forall t : str,
      has_violation t = inr false ->
      exists resp, parse_response t = inr resp
                   /\ violations resp = [no_violation_record])
  /\ (forall (W : Type) (sv : Services W) (data : ScenarioInput)
             (g g' : Globals) (w w' : W) (resp : ScreenResponse),
         screen_scenario sv data g w = (Ok resp, g', w') ->
         has_violation (raw_analysis resp) = inr false ->
         violations resp = [no_violation_record])
  /\ status no_violation_record = lit "No Violation"
  /\ article no_violation_record = lit "N/A"
  /\ guidance no_violation_record = lit "No immediate action required.".
Proof.
  assert (A : forall t resp, parse_response t = inr resp ->
                             has_violation t = inr false ->
                             violations resp = [no_violation_record]).
  { intros t resp P Hb. apply parse_response_inv in P.
    destruct P as (b & v & Hb' & _ & Hv & Hrec & _).
    rewrite Hb in Hb'. injection Hb' as <-. rewrite Hv, Hrec. reflexivity. }
  repeat split.
  - intros t Hb. destruct (parse_response_total t) as [resp P].
    exists resp. split; [exact P|]. exact (A _ _ P Hb).
  - intros W sv data g g' w w' resp H Hb.
    apply screen_scenario_inv in H. destruct H as (reply & t & _ & P).
    pose proof (parse_response_inv _ _ P) as (b & v & _ & Hraw & _).
    rewrite Hraw in Hb. exact (A _ _ P Hb).
Qed.

Lemma no_violation_record_is_fixed_run :
  has_violation reply_no = inr false
  /\ exists resp, parse_response reply_no = inr resp
                  /\ violations resp = [no_violation_record].
Proof.
  split.
  - vm_compute. reflexivity.
  - apply (proj1 no_violation_record_is_fixed reply_no). vm_compute. reflexivity.
Defined.

(** C10. Every record of a ScreenScenario response has confidence 0.95,
    in the violation branch and in the no-violation branch alike. *)
Theorem confidence_is_always_095
    (W : Type) (sv : Services W) (data : ScenarioInput)
    (g g' : Globals) (w w' : W) (resp : ScreenResponse) :
  screen_scenario sv data g w = (Ok resp, g', w') ->
  forall v, In v (violations resp) -> confidence v = 0.95%float.
Proof.
  intros H v Hin. apply screen_scenario_inv in H. destruct H as (reply & t & _ & P).
  apply parse_response_inv in P. destruct P as (b & v' & _ & _ & Hv & Hrec & _).
  rewrite Hv in Hin. destruct Hin as [<-|[]].
  destruct b.
  - apply Hrec.
  - rewrite Hrec. reflexivity.
Qed.

Lemma confidence_is_always_095_run :
  exists resp g' w',
    screen_scenario (world_ok (inr (Some reply_no))) paid_bill initial_globals 0
    = (Ok resp, g', w')
    /\ forall v, In v (violations resp) -> confidence v = 0.95%float.
Proof.
  eexists _, _, _. split.
  - vm_compute. reflexivity.
  - eapply (confidence_is_always_095 nat
              (world_ok (inr (Some reply_no))) paid_bill initial_globals _ 0 _).
    vm_compute. reflexivity.
Defined.

(** ** The normaliser *)


(** ** Failure of the reasoner, and replies that lack sections *)





(** ** The prompt builder *)

Lemma fold_left_append (A : Type) (f : A -> str) (l : list A) (acc : str) :
  fold_left (fun acc a => acc ++ f a) l acc = acc ++ flat_map f l.
Proof.
  revert acc; induction l as [|a l IH]; intros acc; simpl.
  - rewrite app_nil_r. reflexivity.
  - rewrite IH, app_assoc. reflexivity.
Qed.

(** The rendered prompt is the fixed template around the scenario and the
    article blocks. *)
Lemma build_prompt_layout :
  exists head mid tail,
    length head = 90 /\ length mid = 35 /\ length tail = 964
    /\ forall scenario arts,
        build_prompt scenario arts
        = head ++ scenario ++ mid ++ flat_map article_block arts ++ tail.
Proof.
  exists (firstn 90 (build_prompt [] [])),
         (firstn 35 (skipn 90 (build_prompt [] []))),
         (skipn 125 (build_prompt [] [])).
  split; [vm_compute; reflexivity|]. split; [vm_compute; reflexivity|].
  split; [vm_compute; reflexivity|].
  intros scenario arts. unfold build_prompt.
  rewrite fold_left_append. cbn [app].
  generalize (flat_map article_block arts). intros blocks.
  cbn. rewrite <- !app_assoc. reflexivity.
Qed.

Lemma article_block_layout (art : Article) :
  article_block art
  = ([LF] ++ lit "Article: ") ++ article_id art
    ++ ([LF] ++ lit "Summary: ") ++ get_or_empty (summary art)
    ++ ([LF] ++ lit "Full Text: ") ++ get_or_empty (text art)
    ++ ([LF] ++ lit "---" ++ [LF]).
Proof.
  unfold article_block, unlines. cbn [flat_map].
  rewrite <- !app_assoc. reflexivity.
Qed.



(** *** [re.sub]: the fuel is enough *)

(** What follows a match is a suffix of the text. *)
Lemma match_here_suffix (r : regex) (s rest : str) :
  match_here r s = Some rest -> exists pre, s = pre ++ rest.
Proof.
  revert s rest; induction r as [|a r IH]; intros s rest.
  - intros [= <-]. exists []. reflexivity.
  - destruct a as [c|c|p|p|alts]; cbn [match_here].
    + destruct s as [|ch s]; [discriminate|].
      destruct (ch =? c)%N; [|discriminate].
      intros H. destruct (IH _ _ H) as [pre ->]. exists (ch :: pre). reflexivity.
    + destruct s as [|ch s]; [discriminate|].
      destruct (ci_match c ch); [|discriminate].
      intros H. destruct (IH _ _ H) as [pre ->]. exists (ch :: pre). reflexivity.
    + revert rest; induction s as [|ch s IHs]; intros rest.
      * apply IH.
      * destruct (p ch); [|apply IH].
        match goal with |- context [match ?x with Some _ => _ | None => _ end] =>
          destruct x as [rest0|] eqn:E end; [|apply IH].
        intros [= <-]. destruct (IHs _ eq_refl) as [pre ->].
        exists (ch :: pre). reflexivity.
    + revert rest; induction s as [|ch s IHs]; intros rest.
      * destruct (match_here r []) as [rest0|] eqn:E; [|discriminate].
        intros [= <-]. exact (IH _ _ E).
      * destruct (match_here r (ch :: s)) as [rest0|] eqn:E.
        -- intros [= <-]. exact (IH _ _ E).
        -- destruct (p ch); [|discriminate].
           intros H. destruct (IHs _ H) as [pre ->]. exists (ch :: pre). reflexivity.
    + destruct (existsb _ alts); [apply IH|discriminate].
Qed.

(** A pattern that starts with a literal consumes a character. *)
Lemma re_search_shorter (c : char) (r : regex) (s pre rest : str) :
  re_search (Chr c :: r) s = Some (pre, rest) -> length rest < length s.
Proof.
  revert pre; induction s as [|ch s IH]; intros pre; cbn [re_search].
  - cbn [match_here]. discriminate.
  - destruct (match_here (Chr c :: r) (ch :: s)) as [rest0|] eqn:E.
    + intros [= <- <-]. cbn [match_here] in E.
      destruct (ch =? c)%N; [|discriminate].
      apply match_here_suffix in E. destruct E as [pre' ->].
      cbn [length]. rewrite length_app. lia.
    + destruct (re_search (Chr c :: r) s) as [[pre' rest']|] eqn:R; [|discriminate].
      intros [= <- <-]. specialize (IH _ eq_refl). simpl. lia.
Qed.

Lemma re_sub_fuel_enough (c : char) (r : regex) (repl : str) :
  forall n m s, length s <= n -> length s <= m ->
                re_sub_fuel n (Chr c :: r) repl s
                = re_sub_fuel m (Chr c :: r) repl s.
Proof.
  induction n as [|n IH]; intros m s Hn Hm.
  - destruct s; [|simpl in Hn; lia]. destruct m; reflexivity.
  - destruct m as [|m].
    + destruct s; [reflexivity|simpl in Hm; lia].
    + cbn [re_sub_fuel].
      destruct (re_search (Chr c :: r) s) as [[pre rest]|] eqn:R; [|reflexivity].
      pose proof (re_search_shorter _ _ _ _ _ R). do 2 f_equal. apply IH; lia.
Qed.

(** The defining equation of [re.sub] for such a pattern. *)
Lemma re_sub_eq (c : char) (r : regex) (repl s : str) :
  re_sub (Chr c :: r) repl s
  = match re_search (Chr c :: r) s with
    | Some (pre, rest) =>
        pre ++ expand_template repl ++ re_sub (Chr c :: r) repl rest
    | None => s
    end.
Proof.
  unfold re_sub. destruct s as [|ch s]; [reflexivity|].
  cbn [length re_sub_fuel].
  destruct (re_search (Chr c :: r) (ch :: s)) as [[pre rest]|] eqn:R; [|reflexivity].
  pose proof (re_search_shorter _ _ _ _ _ R) as L. simpl in L.
  do 2 f_equal. apply re_sub_fuel_enough; lia.
Qed.

(** Both patterns handed to [re.sub] without a count start with a
    literal. *)
Lemma sub_patterns_start_with_literal :
  (exists c r, RE_EXPLANATION = Chr c :: r) /\ (exists c r, RE_NEXT = Chr c :: r).
Proof. split; eexists _, _; reflexivity. Qed.

(** *** The status pattern needs a backslash in the text *)

Lemma ci_match_backslash (ch : char) : ci_match BACKSLASH ch = true -> ch = BACKSLASH.
Proof.
  unfold ci_match, ascii_lower, is_ascii_upper, BACKSLASH. cbn.
  rewrite !orb_false_r.
  destruct ((65 <=? ch) && (ch <=? 90))%N eqn:U.
  - apply andb_prop in U. destruct U as [U1 U2].
    apply N.leb_le in U1, U2. intros E. apply N.eqb_eq in E. lia.
  - intros E. apply N.eqb_eq in E. exact E.
Qed.

(** After a case-insensitive literal, the match continues on a suffix of
    the text. *)
Lemma match_here_charsI (p : str) (r : regex) (s rest : str) :
  match_here (charsI p ++ r) s = Some rest ->
  exists pre s', s = pre ++ s' /\ match_here r s' = Some rest.
Proof.
  revert s; induction p as [|c p IH]; intros s H.
  - exists [], s. auto.
  - cbn [charsI map app match_here] in H. destruct s as [|ch s]; [discriminate|].
    destruct (ci_match c ch); [|discriminate].
    destruct (IH _ H) as (pre & s' & -> & H'). exists (ch :: pre), s'. auto.
Qed.

Lemma match_status_no_needs_backslash (s : str) :
  ~ In BACKSLASH s -> match_here RE_STATUS_NO s = None.
Proof.
  intros Hno. destruct (match_here RE_STATUS_NO s) as [rest|] eqn:H; [|reflexivity].
  exfalso. unfold RE_STATUS_NO in H.
  apply match_here_charsI in H. destruct H as (pre & s' & -> & H).
  cbn [app match_here] in H. destruct s' as [|ch s']; [discriminate|].
  destruct (ci_match BACKSLASH ch) eqn:C; [|discriminate].
  apply ci_match_backslash in C. subst ch.
  apply Hno. apply in_or_app. right. left. reflexivity.
Qed.

Lemma search_status_no_needs_backslash (s : str) :
  ~ In BACKSLASH s -> re_search RE_STATUS_NO s = None.
Proof.
  induction s as [|c s IH]; intros Hno.
  - cbn [re_search]. rewrite match_status_no_needs_backslash by assumption.
    reflexivity.
  - cbn [re_search]. rewrite match_status_no_needs_backslash by assumption.
    rewrite IH; [reflexivity|]. intros Hin. apply Hno. right. exact Hin.
Qed.

(** On a text without a backslash the normaliser does nothing, whatever
    its status line says. *)
Lemma normalize_without_backslash (t : str) :
  ~ In BACKSLASH t -> normalize_analysis_text (Some t) = Some t.
Proof.
  intros Hno. unfold normalize_analysis_text, re_found.
  rewrite search_status_no_needs_backslash by assumption. reflexivity.
Qed.

(** C1, at a reply of the requested layout that says "Violation Status:
    No": the status line matches, and the normaliser returns the reply as
    it was, with its Explanation and next-steps sections untouched. *)
Theorem normalizer_ignores_plain_no_reply :
  re_found RE_STATUS_NO_spec reply_no = true
  /\ occurs (lit "Violation Status: No") reply_no
  /\ normalize_analysis_text (Some reply_no) = Some reply_no
  /\ re_found RE_STATUS_NO reply_no = false.
Proof.
  split; [vm_compute; reflexivity|]. split.
  - apply contains_true. vm_compute. reflexivity.
  - split; vm_compute; reflexivity.
Qed.

(** C6, at a reply in which a backslash follows the status header: the
    text does not match [Violation Status:\s*No], and the normaliser
    rewrites it all the same. *)
Theorem normalizer_rewrites_backslash_reply :
  re_found RE_STATUS_NO_spec reply_backslash = false
  /\ normalize_analysis_text (Some reply_backslash)
     = Some (lit "Violation Status: No\n\nExplanation:" ++ [LF]
             ++ lit "No fundamental rights violation detected.\n\nWhat the person can do next:\nNo fundamental rights violation detected; no immediate action required.")
  /\ normalize_analysis_text (Some reply_backslash) <> Some reply_backslash.
Proof.
  split; [vm_compute; reflexivity|]. split; [vm_compute; reflexivity|].
  vm_compute. discriminate.
Qed.

(** ** Model selection and initialisation *)

Lemma str_eqb_eq (a b : str) : str_eqb a b = true <-> a = b.
Proof.
  revert b; induction a as [|x a IH]; intros [|y b]; simpl;
    try (split; [discriminate|discriminate]); [split; reflexivity|].
  rewrite andb_true_iff, N.eqb_eq, IH. split.
  - intros [-> ->]. reflexivity.
  - intros [= -> ->]. auto.
Qed.

Lemma existsb_str_eqb (p : str) (l : list str) :
  existsb (str_eqb p) l = true <-> In p l.
Proof.
  rewrite existsb_exists. split.
  - intros (x & Hin & E). apply str_eqb_eq in E. subst. exact Hin.
  - intros Hin. exists p. split; [exact Hin|]. apply str_eqb_eq. reflexivity.
Qed.

Lemma find_first (A : Type) (f : A -> bool) (l : list A) (x : A) :
  find f l = Some x ->
  exists pre post, l = pre ++ x :: post /\ f x = true
                   /\ forall y, In y pre -> f y = false.
Proof.
  induction l as [|a l IH]; simpl; [discriminate|].
  destruct (f a) eqn:Fa.
  - intros [= ->]. exists [], l. repeat split; [exact Fa|intros y []].
  - intros H. destruct (IH H) as (pre & post & -> & Fx & Hpre).
    exists (a :: pre), post. repeat split; [exact Fx|].
    intros y [<-|Hy]; [exact Fa|apply Hpre; exact Hy].
Qed.

Lemma pick_available_chosen (avail : list str) :
  chosen avail (pick_available avail).
Proof.
  unfold pick_available. destruct avail as [|first rest]; [reflexivity|].
  destruct (find _ preferred) as [p|] eqn:F.
  - left. apply find_first in F. destruct F as (pre & post & E & Hp & Hpre).
    exists pre, post. split; [exact E|]. split.
    + apply existsb_str_eqb. exact Hp.
    + intros q Hq Hin. apply existsb_str_eqb in Hin.
      rewrite (Hpre q Hq) in Hin. discriminate.
  - right. split; [|reflexivity].
    intros p Hp Hin. apply existsb_str_eqb in Hin.
    rewrite (find_none _ _ F p Hp) in Hin. discriminate.
Qed.

Lemma label_matches_mentions (label : str) :
  label_matches label = true <-> mentions_capability label.
Proof.
  unfold label_matches, mentions_capability, CAPABILITY_WORDS.
  rewrite !orb_true_iff, !contains_true. split.
  - intros [[[H|H]|H]|H]; eexists; (split; [|exact H]); simpl; auto.
  - intros (word & Hin & H). simpl in Hin.
    destruct Hin as [<-|[<-|[<-|[<-|[]]]]]; auto.
Qed.

Lemma supports_generate_labels (m : ModelEntry) :
  supports_generate m = true <->
  exists label, In label (labels m) /\ mentions_capability label.
Proof.
  unfold supports_generate, labels.
  destruct (py_or (supported_generation_methods m) (supportedMethods m))
    as [|l|v].
  - split; [discriminate|intros (label & [] & _)].
  - rewrite existsb_exists. split; intros (label & Hin & H); exists label;
      (split; [exact Hin|]); apply label_matches_mentions; exact H.
  - rewrite existsb_exists. split; intros (label & Hin & H); exists label;
      (split; [exact Hin|]); apply label_matches_mentions; exact H.
Qed.

(** Lines 88-107 keep exactly the named models with a matching label. *)
Lemma available_kept (info : ModelsInfo) (n : str) :
  In n (available info) <-> kept info n.
Proof.
  unfold available, kept, listed.
  destruct (models_list info) as [ms|].
  - rewrite in_flat_map. split.
    + intros (m & Hm & Hin). exists m.
      destruct (name m) as [[|c n']|] eqn:Hn; try destruct Hin.
      destruct (supports_generate m) eqn:Hs; [|destruct Hin].
      destruct Hin as [<-|[]]. repeat split; [exact Hm|discriminate|].
      apply supports_generate_labels. exact Hs.
    + intros (m & Hm & Hn & Hne & Hl). exists m. split; [exact Hm|].
      rewrite Hn. destruct n as [|c n']; [congruence|].
      apply supports_generate_labels in Hl. rewrite Hl. left. reflexivity.
  - split; [intros []|intros (m & [] & _)].
Qed.

Section Initialisation.

Variable W : Type.
Variable sv : Services W.

Lemma try_preferred_first_instantiable (ps : list str) (g : Globals) (w : W) :
  exists r w', try_preferred sv ps g w = (Ok r, g, w')
               /\ first_instantiable sv ps w r w'.
Proof.
  revert w; induction ps as [|p ps IH]; intros w.
  - exists None, w. split; [reflexivity|constructor].
  - cbn [try_preferred]. unfold bind, attempt.
    destruct (GenerativeModel sv p w) as [[e|u] w1] eqn:G.
    + destruct (IH w1) as (r & w' & E & F). exists r, w'. split; [exact E|].
      eapply fi_miss; eassumption.
    + exists (Some p), w1. split; [reflexivity|]. eapply fi_hit. exact G.
Qed.

(** Lines 72-123: what is selected, and the one error raised here. *)
Lemma select_model_selects (g : Globals) (w : W) :
  exists r w',
    selects sv w r w'
    /\ select_model sv g w
       = match r with
         | Some n => (Ok n, g, w')
         | None => (Raise (Uncaught NO_MODEL), g, w')
         end.
Proof.
  unfold select_model, bind.
  destruct (try_preferred_first_instantiable preferred g w) as (p0 & w1 & E & F).
  rewrite E. destruct p0 as [p|].
  - exists (Some p), w1. split; [|reflexivity]. exists (Some p), w1. auto.
  - unfold discover, bind, attempt, ret.
    destruct (list_models sv w1) as [[e|info] w2] eqn:L.
    + exists None, w2. split; [|reflexivity]. exists None, w1.
      split; [exact F|]. rewrite L. auto.
    + exists (pick_available (available info)), w2. split.
      * exists None, w1. split; [exact F|]. rewrite L. split; [reflexivity|].
        apply pick_available_chosen.
      * destruct (pick_available (available info)); reflexivity.
Qed.

End Initialisation.

(** C9, as the code has it.  In a first initialisation that has loaded a
    non-empty corpus and the encoder, a model is selected as the
    specification says: the first preferred identifier whose instantiation
    does not raise; failing that, from the provider's list, the named
    models with a capability label containing generate, content, text or
    chat (case-insensitively) are kept, and a preferred-list match among
    them is selected if any, else the first kept.  When nothing is selected
    initialisation raises "No suitable generative model available".  When
    a model is selected it is instantiated: initialisation binds it if that
    succeeds and fails with the provider's error if that raises. *)
Theorem init_ai_binds_selected_model
    (W : Type) (sv : Services W) (g : Globals) (w w1 w2 : W)
    (arts : list Article) (enc : str -> Vec) :
  embed_model g = None ->
  load_corpus sv w = (inr arts, w1) ->
  SentenceTransformer sv (lit "all-MiniLM-L6-v2") w1 = (inr enc, w2) ->
  arts <> [] ->
  exists g2 r w3,
    before_selection g g2 arts enc
    /\ selects sv w2 r w3
    /\ (forall info n, In n (available info) <-> kept info n)
    /\ init_ai sv g w
       = match r with
         | None => (Raise (Uncaught NO_MODEL), g2, w3)
         | Some n =>
             match GenerativeModel sv n w3 with
             | (inr _, w4) => (Ok tt, set_gemini g2 n, w4)
             | (inl e, w4) => (Raise (Uncaught e), g2, w4)
             end
         end.
Proof.
  intros Hg Hc He Hne.
  destruct arts as [|a arts]; [congruence|].
  set (embeddings := map enc (map corpus_text (a :: arts))).
  set (g2 := set_index (set_embed_model (set_articles g (a :: arts)) enc)
               (index_add {| dimension := length (enc (corpus_text a));
                             rows := [] |} embeddings)).
  destruct (select_model_selects W sv g2 w2) as (r & w3 & Hsel & Hrun).
  exists g2, r, w3. split; [|split; [exact Hsel|split; [exact available_kept|]]].
  - unfold before_selection, g2. cbn. repeat split. eexists. reflexivity.
  - unfold init_ai, bind, get_globals, put_globals, call, ret.
    rewrite Hg, Hc, He. cbn [map].
    change (select_model sv _ w2) with (select_model sv g2 w2). rewrite Hrun.
    destruct r as [n|]; [|reflexivity].
    destruct (GenerativeModel sv n w3) as [[e|u] w4]; [reflexivity|].
    destruct u. reflexivity.
Qed.

Lemma init_ai_binds_selected_model_run :
  exists g2 r w3,
    before_selection initial_globals g2 [art12; art13; art14] length_encoder
    /\ selects (world_ok (inr (Some reply_yes))) 0 r w3
    /\ (forall info n, In n (available info) <-> kept info n)
    /\ init_ai (world_ok (inr (Some reply_yes))) initial_globals 0
       = match r with
         | None => (Raise (Uncaught NO_MODEL), g2, w3)
         | Some n =>
             match GenerativeModel (world_ok (inr (Some reply_yes))) n w3 with
             | (inr _, w4) => (Ok tt, set_gemini g2 n, w4)
             | (inl e, w4) => (Raise (Uncaught e), g2, w4)
             end
         end.
Proof.
  apply (init_ai_binds_selected_model nat (world_ok (inr (Some reply_yes)))
           initial_globals 0 0 0 [art12; art13; art14] length_encoder).
  - reflexivity.
  - reflexivity.
  - reflexivity.
  - discriminate.
Defined.

(** C9 as stated fails: with no preferred identifier instantiable and a
    generating model in the provider's list, the fallback does yield a
    model, and initialisation raises all the same, when instantiating
    it. *)
Lemma init_fails_although_a_model_is_selected :
  let sv := world_listing (fun _ => false)
              [generating "models/gemini-2.0-flash"] in
  (forall g, select_model sv g 0 = (Ok (lit "models/gemini-2.0-flash"), g, 0))
  /\ fst (fst (init_ai sv initial_globals 0))
     = Raise (Uncaught (provider_error "model is not available"))
  /\ ~ ((exists f g' w', init_ai sv initial_globals 0 = (Raise f, g', w'))
        <-> exists w', selects sv 0 None w').
Proof.
  intros sv. split; [|split].
  - intros g. vm_compute. reflexivity.
  - vm_compute. reflexivity.
  - intros [Hiff _].
    destruct Hiff as (w' & p0 & w1 & F & Hrest).
    { eexists _, _, _. vm_compute. reflexivity. }
    assert (Hw : forall ps w a b, first_instantiable sv ps w a b -> b = w).
    { intros ps w a b H. induction H as [| ? ? ? ? ? G | ? ? ? ? ? ? ? G F' IH].
      - reflexivity.
      - cbn in G. congruence.
      - cbn in G. injection G as _ <-. exact IH. }
    pose proof (Hw _ _ _ _ F) as ->.
    destruct p0 as [p|]; [destruct Hrest; discriminate|].
    cbn in Hrest. destruct Hrest as [_ Hch]. discriminate Hch.
Qed.

(** ** Retrieval *)

(** C2, on a corpus of two articles and the Analyze count of three: the
    index reports the labels 1, 0 and -1, and the comprehension reads
    article -1, the last one, again.  Three records come back from a corpus
    of two, the nearest article repeated after the farthest. *)
Theorem retrieval_repeats_the_last_article :
  exists g ix,
    init_ai world_two_articles initial_globals 0 = (Ok tt, g, 0)
    /\ articles g = Some [art13; art12]
    /\ index g = Some ix
    /\ index_search ix (length_encoder (scenario detained)) 3 = [1; 0; -1]%Z
    /\ @search_relevant_articles nat (scenario detained) 3 g 0
       = (Ok [art12; art13; art12], g, 0)
    /\ (sqdist (length_encoder (scenario detained)) (length_encoder (corpus_text art12))
        < sqdist (length_encoder (scenario detained)) (length_encoder (corpus_text art13)))%Z.
Proof.
  eexists _, _. split; [vm_compute; reflexivity|].
  split; [reflexivity|]. split; [reflexivity|].
  split; [vm_compute; reflexivity|]. split; [vm_compute; reflexivity|].
  vm_compute. reflexivity.
Qed.

(** *** With enough rows, the index returns the nearest ones in order *)

Lemma rank_insert_perm (x : Z * nat) (l : list (Z * nat)) :
  Permutation (rank_insert x l) (x :: l).
Proof.
  induction l as [|y l IH]; simpl; [constructor; constructor|].
  destruct (fst x <=? fst y)%Z; [reflexivity|].
  rewrite IH. apply perm_swap.
Qed.

Lemma rank_insert_hd (a x : Z * nat) (l : list (Z * nat)) :
  by_distance a x -> HdRel by_distance a l ->
  HdRel by_distance a (rank_insert x l).
Proof.
  intros Hax Hl. destruct l as [|y l]; simpl; [constructor; exact Hax|].
  destruct (fst x <=? fst y)%Z; constructor; [exact Hax|].
  apply HdRel_inv in Hl. exact Hl.
Qed.

Lemma rank_insert_sorted (x : Z * nat) (l : list (Z * nat)) :
  Sorted by_distance l -> Sorted by_distance (rank_insert x l).
Proof.
  induction l as [|y l IH]; simpl; intros Hs; [repeat constructor|].
  destruct (fst x <=? fst y)%Z eqn:E.
  - constructor; [exact Hs|]. constructor. apply Z.leb_le. exact E.
  - apply Sorted_inv in Hs. destruct Hs as [Hs Hd].
    constructor; [apply IH; exact Hs|].
    apply rank_insert_hd; [|exact Hd].
    apply Z.leb_gt in E. unfold by_distance. lia.
Qed.

Lemma ranked_perm (ix : IndexFlatL2) (q : Vec) :
  Permutation (ranked ix q)
    (combine (map (sqdist q) (rows ix)) (seq 0 (length (rows ix)))).
Proof.
  unfold ranked. induction (combine _ _) as [|x l IH]; simpl; [constructor|].
  rewrite rank_insert_perm. constructor. exact IH.
Qed.

Lemma ranked_sorted (ix : IndexFlatL2) (q : Vec) :
  StronglySorted by_distance (ranked ix q).
Proof.
  apply Sorted_StronglySorted.
  - intros a b c Hab Hbc. unfold by_distance in *. lia.
  - unfold ranked. induction (combine _ _) as [|x l IH]; simpl; [constructor|].
    apply rank_insert_sorted. exact IH.
Qed.

Lemma in_combine_seq (f : Vec -> Z) (vs : list Vec) (s : nat) (d : Z) (i : nat) :
  In (d, i) (combine (map f vs) (seq s (length vs))) <->
  s <= i < s + length vs /\ d = f (nth (i - s) vs []).
Proof.
  revert s; induction vs as [|v vs IH]; intros s; simpl.
  - split; [intros []|lia].
  - rewrite IH. split.
    + intros [[= <- <-]|[Hi ->]].
      * rewrite Nat.sub_diag. split; [lia|reflexivity].
      * split; [lia|]. destruct (i - s) as [|m] eqn:E; [lia|].
        replace (i - S s) with m by lia. reflexivity.
    + intros [Hi ->]. destruct (i - s) as [|m] eqn:E.
      * left. f_equal. lia.
      * right. split; [lia|]. replace (i - S s) with m by lia. reflexivity.
Qed.

Lemma in_ranked (ix : IndexFlatL2) (q : Vec) (d : Z) (i : nat) :
  In (d, i) (ranked ix q) <-> i < length (rows ix) /\ d = distance_to ix q i.
Proof.
  split.
  - intros H. apply (Permutation_in _ (ranked_perm ix q)) in H.
    apply in_combine_seq in H. rewrite Nat.sub_0_r in H.
    unfold distance_to. split; [lia|apply H].
  - intros [Hi ->]. apply (Permutation_in _ (Permutation_sym (ranked_perm ix q))).
    apply in_combine_seq. rewrite Nat.sub_0_r. split; [lia|reflexivity].
Qed.

Lemma map_snd_combine_seq (ds : list Z) (s : nat) :
  map snd (combine ds (seq s (length ds))) = seq s (length ds).
Proof.
  revert s; induction ds as [|d ds IH]; intros s; simpl; [reflexivity|].
  rewrite IH. reflexivity.
Qed.

Lemma ranked_labels_nodup (ix : IndexFlatL2) (q : Vec) :
  NoDup (map snd (ranked ix q)).
Proof.
  apply (Permutation_NoDup (Permutation_sym (Permutation_map snd (ranked_perm ix q)))).
  rewrite <- (length_map (sqdist q) (rows ix)).
  rewrite map_snd_combine_seq. apply seq_NoDup.
Qed.

Lemma strongly_sorted_app (A : Type) (R : A -> A -> Prop) (l1 l2 : list A) :
  StronglySorted R (l1 ++ l2) ->
  StronglySorted R l1 /\ forall x y, In x l1 -> In y l2 -> R x y.
Proof.
  induction l1 as [|a l1 IH]; simpl; intros H.
  - split; [constructor|intros x y []].
  - apply StronglySorted_inv in H. destruct H as [Hs Ha].
    destruct (IH Hs) as [Hs1 Hcross]. rewrite Forall_forall in Ha. split.
    + constructor; [exact Hs1|]. apply Forall_forall.
      intros x Hx. apply Ha. apply in_or_app. left. exact Hx.
    + intros x y [<-|Hx] Hy.
      * apply Ha. apply in_or_app. right. exact Hy.
      * apply Hcross; assumption.
Qed.

Lemma strongly_sorted_map (A B : Type) (R : A -> A -> Prop) (S : B -> B -> Prop)
    (f : A -> B) (l : list A) :
  (forall x y, In x l -> In y l -> R x y -> S (f x) (f y)) ->
  StronglySorted R l -> StronglySorted S (map f l).
Proof.
  induction l as [|a l IH]; simpl; intros Hf Hs; [constructor|].
  apply StronglySorted_inv in Hs. destruct Hs as [Hs Ha].
  constructor.
  - apply IH; [|exact Hs]. intros x y Hx Hy. apply Hf; right; assumption.
  - rewrite Forall_forall in *. intros y Hy. apply in_map_iff in Hy.
    destruct Hy as (x & <- & Hx). apply Hf; [left; reflexivity|right; exact Hx|].
    apply Ha. exact Hx.
Qed.

(** The labels found when the index holds at least [k] rows. *)
Lemma index_search_nearest (ix : IndexFlatL2) (q : Vec) (k : nat) :
  k <= length (rows ix) ->
  exists labels,
    index_search ix q k = map Z.of_nat labels /\ k_nearest ix q k labels.
Proof.
  intros Hk.
  assert (Hlen : length (ranked ix q) = length (rows ix)).
  { rewrite (Permutation_length (ranked_perm ix q)), length_combine,
      length_map, length_seq. lia. }
  exists (map snd (firstn k (ranked ix q))).
  assert (Hk' : length (firstn k (ranked ix q)) = k).
  { rewrite length_firstn. lia. }
  pose proof (ranked_sorted ix q) as Hsorted.
  rewrite <- (firstn_skipn k (ranked ix q)) in Hsorted.
  apply strongly_sorted_app in Hsorted. destruct Hsorted as [Hfirst Hcross].
  assert (Hin : forall p, In p (firstn k (ranked ix q)) ->
                          snd p < length (rows ix)
                          /\ fst p = distance_to ix q (snd p)).
  { intros [d i] Hp. apply in_ranked.
    rewrite <- (firstn_skipn k (ranked ix q)). apply in_or_app. left. exact Hp. }
  split; [|repeat split].
  - unfold index_search. rewrite Hk', Nat.sub_diag, app_nil_r, map_map. reflexivity.
  - rewrite length_map. exact Hk'.
  - rewrite <- firstn_map.
    apply (NoDup_app_remove_r _ (skipn k (map snd (ranked ix q)))).
    rewrite firstn_skipn. apply ranked_labels_nodup.
  - intros i Hi. apply in_map_iff in Hi. destruct Hi as (p & <- & Hp).
    apply Hin. exact Hp.
  - apply (strongly_sorted_map _ _ by_distance); [|exact Hfirst].
    intros x y Hx Hy Hxy. unfold by_distance in Hxy.
    destruct (Hin x Hx) as [_ <-]. destruct (Hin y Hy) as [_ <-]. exact Hxy.
  - intros i j Hi Hj Hnot. apply in_map_iff in Hi. destruct Hi as (p & <- & Hp).
    destruct (Hin p Hp) as [_ <-].
    assert (Hjr : In (distance_to ix q j, j) (ranked ix q)).
    { apply in_ranked. auto. }
    rewrite <- (firstn_skipn k (ranked ix q)) in Hjr.
    apply in_app_or in Hjr. destruct Hjr as [Hjf|Hjs].
    + exfalso. apply Hnot. apply in_map_iff.
      exists (distance_to ix q j, j). auto.
    + apply (Hcross p _ Hp Hjs).
Qed.

Lemma lookup_articles_in_range (arts : list Article) (labels : list nat) :
  (forall i, In i labels -> i < length arts) ->
  exists found,
    lookup_articles (Some arts) (map Z.of_nat labels) = inr found
    /\ Forall2 (fun i a => nth_error arts i = Some a) labels found.
Proof.
  induction labels as [|i labels IH]; intros Hr.
  - exists []. split; [reflexivity|constructor].
  - destruct IH as (found & E & F); [intros j Hj; apply Hr; right; exact Hj|].
    assert (Hi : i < length arts) by (apply Hr; left; reflexivity).
    destruct (nth_error arts i) as [a|] eqn:N;
      [|apply nth_error_None in N; lia].
    exists (a :: found). split; [|constructor; assumption].
    cbn [map lookup_articles]. unfold item, py_index.
    replace ((0 <=? Z.of_nat i)%Z && (Z.of_nat i <? Z.of_nat (length arts))%Z)
      with true.
    + rewrite Nat2Z.id, N, E. reflexivity.
    + symmetry. apply andb_true_iff. split; [apply Z.leb_le|apply Z.ltb_lt]; lia.
Qed.

(** Retrieval on a corpus of at least [top_k] articles: exactly [top_k]
    records, those of the nearest rows, nearest first. *)
Lemma retrieval_nearest_first (W : Type) (g : Globals) (w : W)
    (encode : str -> Vec) (ix : IndexFlatL2) (arts : list Article)
    (user_input : str) (top_k : nat) :
  embed_model g = Some encode -> index g = Some ix -> articles g = Some arts ->
  length (rows ix) = length arts -> top_k <= length arts ->
  exists labels found,
    @search_relevant_articles W user_input top_k g w = (Ok found, g, w)
    /\ length found = top_k
    /\ Forall2 (fun i a => nth_error arts i = Some a) labels found
    /\ k_nearest ix (encode user_input) top_k labels.
Proof.
  intros He Hi Ha Hrows Hk.
  destruct (index_search_nearest ix (encode user_input) top_k) as (labels & S & N);
    [lia|].
  destruct (lookup_articles_in_range arts labels) as (found & L & F).
  { intros i Hin. rewrite <- Hrows. apply N. exact Hin. }
  exists labels, found. split; [|split; [|split; [exact F|exact N]]].
  - unfold search_relevant_articles, bind, get_globals.
    rewrite He, Hi, Ha, S, L. reflexivity.
  - rewrite <- (Forall2_length F). apply N.
Qed.

(** * Further properties of the code *)

(** ** Subscripts and the retrieval comprehension *)

Lemma item_in_range (A : Type) (l : list A) (i : Z) :
  in_range (length l) i ->
  exists a, item l i = inr a /\ nth_error l (py_position (length l) i) = Some a.
Proof.
  unfold in_range, item, py_index, py_position. intros Hi.
  destruct (Z.ltb_spec i 0) as [Hneg|Hpos].
  - replace ((0 <=? i)%Z && (i <? Z.of_nat (length l))%Z) with false
      by (symmetry; apply andb_false_iff; left; apply Z.leb_gt; lia).
    replace ((- Z.of_nat (length l) <=? i)%Z && true) with true
      by (symmetry; apply andb_true_iff; split; [apply Z.leb_le; lia|reflexivity]).
    destruct (nth_error l (Z.to_nat (Z.of_nat (length l) + i))) as [a|] eqn:N.
    + exists a. auto.
    + apply nth_error_None in N. lia.
  - replace ((0 <=? i)%Z && (i <? Z.of_nat (length l))%Z) with true
      by (symmetry; apply andb_true_iff; split;
          [apply Z.leb_le|apply Z.ltb_lt]; lia).
    destruct (nth_error l (Z.to_nat i)) as [a|] eqn:N.
    + exists a. auto.
    + apply nth_error_None in N. lia.
Qed.

Lemma item_out_of_range (A : Type) (l : list A) (i : Z) :
  ~ in_range (length l) i -> item l i = inl index_error.
Proof.
  unfold in_range, item, py_index. intros Hi.
  replace ((0 <=? i)%Z && (i <? Z.of_nat (length l))%Z) with false.
  - replace ((- Z.of_nat (length l) <=? i)%Z && (i <? 0)%Z) with false;
      [reflexivity|].
    symmetry. apply andb_false_iff.
    destruct (Z.leb_spec (- Z.of_nat (length l)) i); [right|left; reflexivity].
    apply Z.ltb_ge. lia.
  - symmetry. apply andb_false_iff.
    destruct (Z.leb_spec 0 i); [right|left; reflexivity].
    apply Z.ltb_ge. lia.
Qed.

Lemma lookup_articles_ok (arts : list Article) (labels : list Z) :
  Forall (in_range (length arts)) labels ->
  exists found,
    lookup_articles (Some arts) labels = inr found
    /\ Forall2 (fun i a => nth_error arts (py_position (length arts) i) = Some a)
               labels found.
Proof.
  induction 1 as [|i labels Hi _ IH].
  - exists []. split; [reflexivity|constructor].
  - destruct IH as (found & E & F).
    destruct (item_in_range _ arts i Hi) as (a & Ei & Na).
    exists (a :: found). cbn [lookup_articles]. rewrite Ei, E.
    split; [reflexivity|constructor; assumption].
Qed.

Lemma lookup_articles_error (arts : list Article) (labels : list Z) :
  Exists (fun i => ~ in_range (length arts) i) labels ->
  lookup_articles (Some arts) labels = inl index_error.
Proof.
  induction labels as [|i labels IH]; intros H; [inversion H|].
  cbn [lookup_articles].
  destruct (item arts i) as [e|a] eqn:Ei.
  - unfold item in Ei. destruct (py_index arts i); [discriminate|].
    injection Ei as <-. reflexivity.
  - inversion H as [? ? Hi|? ? Ht]; subst.
    + rewrite (item_out_of_range _ arts i Hi) in Ei. discriminate.
    + rewrite (IH Ht). reflexivity.
Qed.

(** X4. The comprehension [[articles[i] for i in indices]] succeeds when
    every label is a valid subscript, negative ones counting from the end,
    and gives one record per label; a single label out of range makes it
    raise IndexError. *)
Theorem comprehension_follows_python_subscripts
    (arts : list Article) (labels : list Z) :
  (Forall (in_range (length arts)) labels ->
   exists found,
     lookup_articles (Some arts) labels = inr found
     /\ length found = length labels
     /\ Forall2 (fun i a => nth_error arts (py_position (length arts) i) = Some a)
                labels found)
  /\ (Exists (fun i => ~ in_range (length arts) i) labels ->
      lookup_articles (Some arts) labels = inl index_error).
Proof.
  split.
  - intros H. destruct (lookup_articles_ok arts labels H) as (found & E & F).
    exists found. split; [exact E|]. split; [|exact F].
    symmetry. exact (Forall2_length F).
  - apply lookup_articles_error.
Qed.

Lemma comprehension_follows_python_subscripts_run :
  (exists found,
      lookup_articles (Some [art12; art13; art14]) [2; -1; 0; -3]%Z = inr found
      /\ length found = 4
      /\ Forall2 (fun i a => nth_error [art12; art13; art14] (py_position 3 i) = Some a)
                 [2; -1; 0; -3]%Z found)
  /\ lookup_articles (Some [art12; art13; art14]) [0; 3]%Z = inl index_error.
Proof.
  split.
  - apply (proj1 (comprehension_follows_python_subscripts
                    [art12; art13; art14] [2; -1; 0; -3]%Z)).
    repeat constructor; cbn; lia.
  - apply (proj2 (comprehension_follows_python_subscripts
                    [art12; art13; art14] [0; 3]%Z)).
    right. left. unfold in_range. cbn. lia.
Defined.

(** ** Retrieval on any corpus that is ready *)

Lemma ranked_length (ix : IndexFlatL2) (q : Vec) :
  length (ranked ix q) = length (rows ix).
Proof.
  rewrite (Permutation_length (ranked_perm ix q)), length_combine,
    length_map, length_seq. lia.
Qed.

Lemma index_search_length (ix : IndexFlatL2) (q : Vec) (k : nat) :
  length (index_search ix q k) = k.
Proof.
  unfold index_search. rewrite length_app, !length_map, repeat_length.
  pose proof (firstn_le_length k (ranked ix q)). lia.
Qed.

Lemma ranked_labels_in_range (ix : IndexFlatL2) (q : Vec) (l : list (Z * nat)) :
  (forall p, In p l -> In p (ranked ix q)) ->
  rows ix <> [] ->
  Forall (in_range (length (rows ix))) (map (fun x => Z.of_nat (snd x)) l).
Proof.
  intros Hl Hne. apply Forall_forall. intros i Hi. apply in_map_iff in Hi.
  destruct Hi as ([d j] & <- & Hp). apply Hl in Hp. apply in_ranked in Hp.
  unfold in_range. cbn. lia.
Qed.

Lemma index_search_in_range (ix : IndexFlatL2) (q : Vec) (k : nat) :
  rows ix <> [] -> Forall (in_range (length (rows ix))) (index_search ix q k).
Proof.
  intros Hne. unfold index_search. apply Forall_app. split.
  - apply (ranked_labels_in_range ix q); [|exact Hne].
    intros p Hp. rewrite <- (firstn_skipn k (ranked ix q)).
    apply in_or_app. left. exact Hp.
  - apply Forall_forall. intros i Hi. apply repeat_spec in Hi. subst i.
    unfold in_range. destruct (rows ix); [congruence|]. cbn [length]. lia.
Qed.

Lemma index_search_short (ix : IndexFlatL2) (q : Vec) (k : nat) :
  length (rows ix) <= k ->
  index_search ix q k
  = map (fun x => Z.of_nat (snd x)) (ranked ix q)
    ++ repeat (-1)%Z (k - length (rows ix)).
Proof.
  intros Hk. unfold index_search.
  rewrite firstn_all2 by (rewrite ranked_length; exact Hk).
  rewrite ranked_length. reflexivity.
Qed.

Lemma lookup_articles_app (arts : option (list Article)) (l1 l2 : list Z) :
  lookup_articles arts (l1 ++ l2)
  = match lookup_articles arts l1 with
    | inl e => inl e
    | inr f1 =>
        match lookup_articles arts l2 with
        | inl e => inl e
        | inr f2 => inr (f1 ++ f2)
        end
    end.
Proof.
  induction l1 as [|i l1 IH]; cbn [app lookup_articles].
  - destruct (lookup_articles arts l2); reflexivity.
  - destruct arts as [l|]; [|reflexivity].
    destruct (item l i); [reflexivity|]. rewrite IH.
    destruct (lookup_articles (Some l) l1); [reflexivity|].
    destruct (lookup_articles (Some l) l2); reflexivity.
Qed.

Lemma lookup_minus_one (arts : list Article) (d : Article) (m : nat) :
  arts <> [] ->
  lookup_articles (Some arts) (repeat (-1)%Z m) = inr (repeat (last arts d) m).
Proof.
  intros Hne. induction m as [|m IH]; [reflexivity|].
  cbn [repeat lookup_articles]. rewrite IH.
  assert (Hr : in_range (length arts) (-1)).
  { unfold in_range. destruct arts; [congruence|]. cbn [length]. lia. }
  destruct (item_in_range _ arts (-1)%Z Hr) as (a & -> & Na).
  replace (last arts d) with a; [reflexivity|].
  unfold py_position in Na. cbn in Na.
  replace (Z.to_nat (Z.of_nat (length arts) + -1)) with (length arts - 1) in Na by lia.
  clear -Na Hne. revert a Na. induction arts as [|x arts IHa]; [congruence|].
  intros a Na. destruct arts as [|y arts].
  - cbn in Na. injection Na as <-. reflexivity.
  - cbn [length] in Na. replace (S (S (length arts)) - 1) with (S (length arts)) in Na by lia.
    cbn [nth_error] in Na. cbn [last]. apply IHa; [discriminate|].
    cbn [length]. replace (S (length arts) - 1) with (length arts) by lia. exact Na.
Qed.

(** Retrieval on a corpus that is ready, whatever the count. *)
Lemma search_on_ready_corpus (W : Type) (g : Globals) (w : W)
    (enc : str -> Vec) (ix : IndexFlatL2) (arts : list Article)
    (user_input : str) (top_k : nat) :
  corpus_ready g enc ix arts ->
  exists found,
    @search_relevant_articles W user_input top_k g w = (Ok found, g, w)
    /\ lookup_articles (Some arts) (index_search ix (enc user_input) top_k)
       = inr found
    /\ length found = top_k
    /\ Forall (fun a => In a arts) found.
Proof.
  intros (He & Hi & Ha & Hrows & Hne).
  assert (Hlen : length (rows ix) = length arts).
  { rewrite Hrows, !length_map. reflexivity. }
  assert (Hrne : rows ix <> []).
  { intros E. rewrite E in Hlen. destruct arts; [congruence|discriminate]. }
  pose proof (index_search_in_range ix (enc user_input) top_k Hrne) as Hr.
  rewrite Hlen in Hr.
  destruct (lookup_articles_ok arts _ Hr) as (found & L & F).
  exists found. split; [|split; [exact L|split]].
  - unfold search_relevant_articles, bind, get_globals.
    rewrite He, Hi, Ha, L. reflexivity.
  - rewrite <- (Forall2_length F). apply index_search_length.
  - clear -F. induction F as [|i a l f Hn _ IH]; constructor; [|exact IH].
    apply nth_error_In in Hn. exact Hn.
Qed.

(** Retrieval when the index has one row per article of a non-empty
    corpus. *)
Lemma search_with_aligned_index (W : Type) (g : Globals) (w : W)
    (enc : str -> Vec) (ix : IndexFlatL2) (arts : list Article)
    (user_input : str) (top_k : nat) :
  embed_model g = Some enc -> index g = Some ix -> articles g = Some arts ->
  length (rows ix) = length arts -> arts <> [] ->
  exists found,
    @search_relevant_articles W user_input top_k g w = (Ok found, g, w)
    /\ lookup_articles (Some arts) (index_search ix (enc user_input) top_k)
       = inr found
    /\ length found = top_k
    /\ Forall (fun a => In a arts) found.
Proof.
  intros He Hi Ha Hlen Hne.
  assert (Hrne : rows ix <> []).
  { intros E. rewrite E in Hlen. destruct arts; [congruence|discriminate]. }
  pose proof (index_search_in_range ix (enc user_input) top_k Hrne) as Hr.
  rewrite Hlen in Hr.
  destruct (lookup_articles_ok arts _ Hr) as (found & L & F).
  exists found. split; [|split; [exact L|split]].
  - unfold search_relevant_articles, bind, get_globals.
    rewrite He, Hi, Ha, L. reflexivity.
  - rewrite <- (Forall2_length F). apply index_search_length.
  - clear -F. induction F as [|i a l f Hn _ IH]; constructor; [|exact IH].
    apply nth_error_In in Hn. exact Hn.
Qed.

(** X5. With the encoder, a non-empty corpus and an index of one row per
    article in place, retrieval of a positive count [top_k] (the index
    refuses a count of zero) does not raise and returns exactly [top_k]
    records of the corpus; when the corpus has fewer than [top_k]
    articles the records beyond the corpus size are all the last article
    of the corpus. *)
Theorem retrieval_always_returns_top_k (W : Type) (g : Globals) (w : W)
    (enc : str -> Vec) (ix : IndexFlatL2) (arts : list Article)
    (user_input : str) (top_k : nat) :
  embed_model g = Some enc -> index g = Some ix -> articles g = Some arts ->
  length (rows ix) = length arts -> arts <> [] ->
  0 < top_k ->
  exists found,
    @search_relevant_articles W user_input top_k g w = (Ok found, g, w)
    /\ length found = top_k
    /\ Forall (fun a => In a arts) found
    /\ (length arts <= top_k ->
        forall d, skipn (length arts) found
                  = repeat (last arts d) (top_k - length arts)).
Proof.
  intros He Hi Ha Hl Hne _.
  destruct (search_with_aligned_index W g w enc ix arts user_input top_k
              He Hi Ha Hl Hne) as (found & S & L & Hlen & Hin).
  exists found. split; [exact S|]. split; [exact Hlen|]. split; [exact Hin|].
  intros Hk d.
  rewrite index_search_short, lookup_articles_app in L by lia.
  destruct (lookup_articles (Some arts) (map _ (ranked ix (enc user_input))))
    as [e|near] eqn:N; [discriminate|].
  rewrite (lookup_minus_one arts d _ Hne) in L. injection L as <-.
  assert (Hn : length near = length arts).
  { assert (Hr : Forall (in_range (length arts))
                   (map (fun x => Z.of_nat (snd x)) (ranked ix (enc user_input)))).
    { rewrite <- Hl. apply (ranked_labels_in_range ix (enc user_input)); [auto|].
      intros E. rewrite E in Hl. destruct arts; [congruence|discriminate]. }
    destruct (lookup_articles_ok arts _ Hr) as (near' & N' & F).
    rewrite N in N'. injection N' as <-.
    rewrite <- (Forall2_length F), length_map, ranked_length. exact Hl. }
  rewrite Hl, <- Hn, skipn_app, skipn_all, Nat.sub_diag. reflexivity.
Qed.

Lemma retrieval_always_returns_top_k_run :
  exists g found,
    init_ai world_two_articles initial_globals 0 = (Ok tt, g, 0)
    /\ @search_relevant_articles nat (scenario detained) 5 g 0 = (Ok found, g, 0)
    /\ length found = 5
    /\ Forall (fun a => In a [art13; art12]) found
    /\ (length [art13; art12] <= 5 ->
        forall d, skipn (length [art13; art12]) found
                  = repeat (last [art13; art12] d) (5 - length [art13; art12])).
Proof.
  exists (snd (fst (init_ai world_two_articles initial_globals 0))).
  destruct (retrieval_always_returns_top_k nat
              (snd (fst (init_ai world_two_articles initial_globals 0))) 0
              length_encoder {| dimension := 1; rows := [[51%Z]; [62%Z]] |}
              [art13; art12] (scenario detained) 5)
    as (found & S & H); try reflexivity.
  - discriminate.
  - lia.
  - exists found. split; [vm_compute; reflexivity|]. split; [exact S|exact H].
Defined.

(** ** Initialisation, step by step *)

Lemma preferred_names_nonempty : Forall (fun p => p <> []) preferred.
Proof. repeat constructor; discriminate. Qed.

Section InitialisationSteps.

Variable W : Type.
Variable sv : Services W.

Lemma first_instantiable_in (ps : list str) (w w' : W) (p : str) :
  first_instantiable sv ps w (Some p) w' -> In p ps.
Proof.
  intros H. remember (Some p) as r eqn:Hr.
  induction H as [| q ps w w' u G | q ps w w1 w' e r G F IH].
  - discriminate.
  - injection Hr as ->. left. reflexivity.
  - right. apply IH. exact Hr.
Qed.

(** A selected name is not empty, and is a preferred identifier or a kept
    name of the provider's list. *)
Lemma selects_name (w w' : W) (n : str) :
  selects sv w (Some n) w' ->
  n <> []
  /\ (In n preferred
      \/ exists w1 w2 info, list_models sv w1 = (inr info, w2) /\ kept info n).
Proof.
  intros (p0 & w1 & F & H). destruct p0 as [p|].
  - destruct H as [[= <-] _]. apply first_instantiable_in in F.
    split; [|left; exact F].
    pose proof preferred_names_nonempty as Hp. rewrite Forall_forall in Hp.
    apply Hp. exact F.
  - destruct (list_models sv w1) as [[e|info] w2] eqn:L.
    + destruct H as [[=] _].
    + destruct H as [_ Hch].
      assert (Hin : In n (available info)).
      { destruct Hch as [(pre & post & _ & Hin & _)|[_ Hhd]]; [exact Hin|].
        destruct (available info); [discriminate|].
        injection Hhd as ->. left. reflexivity. }
      apply available_kept in Hin. split.
      * destruct Hin as (m & _ & _ & Hne & _). exact Hne.
      * right. exists w1, w2, info. auto.
Qed.

Lemma init_ai_noop (g : Globals) (w : W) (enc : str -> Vec) :
  embed_model g = Some enc -> init_ai sv g w = (Ok tt, g, w).
Proof.
  intros He. unfold init_ai, bind, get_globals. rewrite He. reflexivity.
Qed.

(** A first initialisation, written out: each way it can end, with the
    globals it leaves. *)
Lemma init_ai_fresh (g : Globals) (w : W) :
  embed_model g = None ->
  init_ai sv g w =
  match load_corpus sv w with
  | (inl e, w1) => (Raise (Uncaught e), g, w1)
  | (inr arts, w1) =>
      match SentenceTransformer sv (lit "all-MiniLM-L6-v2") w1 with
      | (inl e, w2) => (Raise (Uncaught e), set_articles g arts, w2)
      | (inr enc, w2) =>
          match arts with
          | [] =>
              (Raise (Uncaught {| cls := IndexError;
                                  message := lit "tuple index out of range" |}),
               set_embed_model (set_articles g arts) enc, w2)
          | _ :: _ =>
              match select_model sv (selection_globals g arts enc) w2 with
              | (Raise f, _, w3) => (Raise f, selection_globals g arts enc, w3)
              | (Ok n, _, w3) =>
                  match GenerativeModel sv n w3 with
                  | (inl e, w4) =>
                      (Raise (Uncaught e), selection_globals g arts enc, w4)
                  | (inr _, w4) =>
                      (Ok tt, set_gemini (selection_globals g arts enc) n, w4)
                  end
              end
          end
      end
  end.
Proof.
  intros Hg. unfold init_ai, bind, get_globals, put_globals, call, ret.
  rewrite Hg.
  destruct (load_corpus sv w) as [[e|arts] w1]; [reflexivity|].
  destruct (SentenceTransformer sv _ w1) as [[e|enc] w2]; [reflexivity|].
  destruct arts as [|a arts]; [reflexivity|].
  cbn [map].
  change (select_model sv _ w2)
    with (select_model sv (selection_globals g (a :: arts) enc) w2).
  destruct (select_model_selects W sv (selection_globals g (a :: arts) enc) w2)
    as (r & w3 & _ & ->).
  destruct r as [n|]; [|reflexivity].
  destruct (GenerativeModel sv n w3) as [[e|u] w4]; reflexivity.
Qed.

Lemma selection_globals_ready (g : Globals) (arts : list Article)
    (enc : str -> Vec) :
  arts <> [] ->
  exists ix, corpus_ready (selection_globals g arts enc) enc ix arts
             /\ gemini (selection_globals g arts enc) = gemini g.
Proof.
  intros Hne. eexists. split; [|reflexivity].
  unfold corpus_ready. cbn. repeat split. exact Hne.
Qed.

End InitialisationSteps.

Section InitialisationOutcomes.

Variable W : Type.
Variable sv : Services W.

Lemma select_model_result (g g' : Globals) (w w' : W) (n : str) :
  select_model sv g w = (Ok n, g', w') ->
  g' = g /\ selects sv w (Some n) w'.
Proof.
  intros H. destruct (select_model_selects W sv g w) as (r & w3 & Hsel & Hrun).
  rewrite Hrun in H. destruct r as [m|]; [|discriminate].
  injection H as -> <- ->. auto.
Qed.

Lemma select_model_raises (g g' : Globals) (w w' : W) (f : Failure) :
  select_model sv g w = (Raise f, g', w') -> f = Uncaught NO_MODEL /\ g' = g.
Proof.
  intros H. destruct (select_model_selects W sv g w) as (r & w3 & Hsel & Hrun).
  rewrite Hrun in H. destruct r as [m|]; [discriminate|].
  injection H as <- <- _. auto.
Qed.

(** What a successful first initialisation leaves behind. *)
Lemma init_ai_success (g g1 : Globals) (w w1 : W) :
  embed_model g = None ->
  init_ai sv g w = (Ok tt, g1, w1) ->
  exists enc ix arts n,
    corpus_ready g1 enc ix arts /\ gemini g1 = Some n /\ n <> []
    /\ (In n preferred
        \/ exists wa wb info, list_models sv wa = (inr info, wb) /\ kept info n).
Proof.
  intros Hg H. rewrite (init_ai_fresh W sv g w Hg) in H.
  destruct (load_corpus sv w) as [[e|arts] wa]; [discriminate|].
  destruct (SentenceTransformer sv _ wa) as [[e|enc] wb]; [discriminate|].
  destruct arts as [|a arts]; [discriminate|].
  destruct (select_model sv _ wb) as [[[n|f] g'] wc] eqn:S; [|discriminate].
  destruct (GenerativeModel sv n wc) as [[e|u] wd]; [discriminate|].
  injection H as <- <-.
  apply select_model_result in S. destruct S as [_ Hsel].
  apply selects_name in Hsel. destruct Hsel as [Hne Hfrom].
  destruct (selection_globals_ready g (a :: arts) enc) as (ix & Hready & _);
    [discriminate|].
  exists enc, ix, (a :: arts), n. split; [exact Hready|]. auto.
Qed.

Lemma init_ai_success_encoder (g g1 : Globals) (w w1 : W) :
  init_ai sv g w = (Ok tt, g1, w1) -> exists enc, embed_model g1 = Some enc.
Proof.
  intros H. destruct (embed_model g) as [enc|] eqn:Hg.
  - rewrite (init_ai_noop W sv g w enc Hg) in H. injection H as <- _. eauto.
  - destruct (init_ai_success g g1 w w1 Hg H) as (enc & ix & arts & n & R & _).
    exists enc. apply R.
Qed.

Lemma init_ai_raises_uncaught (g g1 : Globals) (w w1 : W) (f : Failure) :
  init_ai sv g w = (Raise f, g1, w1) -> exists e, f = Uncaught e.
Proof.
  intros H. destruct (embed_model g) as [enc|] eqn:Hg.
  - rewrite (init_ai_noop W sv g w enc Hg) in H. discriminate.
  - rewrite (init_ai_fresh W sv g w Hg) in H.
    destruct (load_corpus sv w) as [[e|arts] wa]; [injection H as <- _ _; eauto|].
    destruct (SentenceTransformer sv _ wa) as [[e|enc] wb];
      [injection H as <- _ _; eauto|].
    destruct arts as [|a arts]; [injection H as <- _ _; eauto|].
    destruct (select_model sv _ wb) as [[[n|f'] g'] wc] eqn:S.
    + destruct (GenerativeModel sv n wc) as [[e|u] wd]; [|discriminate].
      injection H as <- _ _. eauto.
    + apply select_model_raises in S. destruct S as [-> _].
      injection H as <- _ _. eauto.
Qed.

(** X6. A first initialisation that succeeds leaves all four holders
    set: [articles] is the corpus that the load returned, [embed_model]
    the encoder that was loaded, [index] holds an index, and [gemini] a
    model that was instantiated last, whose name is not empty and is a
    preferred identifier or a kept name of the provider's list. *)
Theorem init_success_sets_every_holder (g g1 : Globals) (w w1 : W) :
  embed_model g = None ->
  init_ai sv g w = (Ok tt, g1, w1) ->
  exists arts enc ix n wa wb wc u,
    load_corpus sv w = (inr arts, wa)
    /\ SentenceTransformer sv (lit "all-MiniLM-L6-v2") wa = (inr enc, wb)
    /\ GenerativeModel sv n wc = (inr u, w1)
    /\ articles g1 = Some arts
    /\ embed_model g1 = Some enc
    /\ index g1 = Some ix
    /\ gemini g1 = Some n
    /\ n <> []
    /\ (In n preferred
        \/ exists wx wy info, list_models sv wx = (inr info, wy) /\ kept info n).
Proof.
  intros Hg H. rewrite (init_ai_fresh W sv g w Hg) in H.
  destruct (load_corpus sv w) as [[e|arts] wa] eqn:El; [discriminate|].
  destruct (SentenceTransformer sv (lit "all-MiniLM-L6-v2") wa)
    as [[e|enc] wb] eqn:Es; [discriminate|].
  destruct arts as [|a arts]; [discriminate|].
  destruct (select_model sv _ wb) as [[[n|f] g'] wc] eqn:S; [|discriminate].
  destruct (GenerativeModel sv n wc) as [[e|u] wd] eqn:G; [discriminate|].
  injection H as <- <-.
  apply select_model_result in S. destruct S as [_ Hsel].
  apply selects_name in Hsel. destruct Hsel as [Hne Hfrom].
  exists (a :: arts), enc,
    (index_add {| dimension := length (hd [] (map enc (map corpus_text (a :: arts))));
                  rows := [] |} (map enc (map corpus_text (a :: arts)))),
    n, wa, wb, wc, u.
  repeat split; try reflexivity; try assumption.
Qed.

(** X7. Initialisation is lazy: after a call that succeeded, a further
    call changes no global and makes no outside call. *)
Theorem init_is_done_once (g g1 : Globals) (w w1 : W) :
  init_ai sv g w = (Ok tt, g1, w1) ->
  forall w', init_ai sv g1 w' = (Ok tt, g1, w').
Proof.
  intros H w'. destruct (init_ai_success_encoder g g1 w w1 H) as [enc He].
  apply (init_ai_noop W sv g1 w' enc He).
Qed.

(** X8. A first initialisation that loads the corpus and the encoder and
    then fails to select or bind a model is not tried again: the encoder
    holder is already set, so every later initialisation is skipped, and
    every later request on either endpoint ends in HTTP 500 with the
    message of the missing attribute, without any outside call. *)
Theorem failed_binding_is_not_retried
    (g g1 : Globals) (w w1 w2 w3 : W) (arts : list Article) (enc : str -> Vec)
    (f : Failure) :
  embed_model g = None -> gemini g = None ->
  load_corpus sv w = (inr arts, w1) -> arts <> [] ->
  SentenceTransformer sv (lit "all-MiniLM-L6-v2") w1 = (inr enc, w2) ->
  init_ai sv g w = (Raise f, g1, w3) ->
  forall data w',
    init_ai sv g1 w' = (Ok tt, g1, w')
    /\ analyze sv data g1 w'
       = (Raise (HTTPException 500 (message (attribute_error "generate_content"))),
          g1, w')
    /\ screen_scenario sv data g1 w'
       = (Raise (HTTPException 500 (message (attribute_error "generate_content"))),
          g1, w').
Proof.
  intros Hg Hgem Hc Hne He H data w'.
  rewrite (init_ai_fresh W sv g w Hg), Hc, He in H.
  destruct arts as [|a arts]; [congruence|].
  assert (Hg1 : g1 = selection_globals g (a :: arts) enc).
  { destruct (select_model sv _ w2) as [[[n|f'] g'] wc].
    - destruct (GenerativeModel sv n wc) as [[e|u] wd]; [|discriminate].
      injection H as _ <- _. reflexivity.
    - injection H as _ <- _. reflexivity. }
  destruct (selection_globals_ready g (a :: arts) enc Hne) as (ix & Hready & Hgm).
  rewrite <- Hg1 in Hready, Hgm. rewrite Hgem in Hgm.
  assert (Hinit : init_ai sv g1 w' = (Ok tt, g1, w')).
  { apply (init_ai_noop W sv g1 w' enc). apply Hready. }
  split; [exact Hinit|]. split.
  - destruct (search_on_ready_corpus W g1 w' enc ix (a :: arts) (scenario data) 3
                Hready) as (found & S & _).
    unfold analyze, bind. rewrite Hinit, S, (generate_unbound W sv _ g1 w' Hgm).
    reflexivity.
  - destruct (search_on_ready_corpus W g1 w' enc ix (a :: arts) (scenario data) 5
                Hready) as (found & S & _).
    unfold screen_scenario, bind.
    rewrite Hinit, S, (generate_unbound W sv _ g1 w' Hgm). reflexivity.
Qed.

(** X9. A first initialisation that fails leaves the encoder holder unset,
    so that the next request initialises again, exactly when it failed
    while loading the corpus or the encoder; any later failure (an empty
    corpus, no model selected, the model not instantiable) leaves it
    set. *)
Theorem failed_load_is_tried_again (g g1 : Globals) (w w1 : W) (f : Failure) :
  embed_model g = None ->
  init_ai sv g w = (Raise f, g1, w1) ->
  (embed_model g1 = None <->
   (exists e wa, load_corpus sv w = (inl e, wa))
   \/ (exists arts wa e wb,
          load_corpus sv w = (inr arts, wa)
          /\ SentenceTransformer sv (lit "all-MiniLM-L6-v2") wa = (inl e, wb))).
Proof.
  intros Hg H. rewrite (init_ai_fresh W sv g w Hg) in H.
  destruct (load_corpus sv w) as [[e|arts] wa] eqn:El.
  - injection H as _ <- _. split; [eauto|intros _; exact Hg].
  - destruct (SentenceTransformer sv (lit "all-MiniLM-L6-v2") wa)
      as [[e|enc] wb] eqn:Es.
    + injection H as _ <- _. split; [|intros _; exact Hg].
      intros _. right. exists arts, wa, e, wb. split; [reflexivity|exact Es].
    + assert (He : embed_model g1 = Some enc).
      { destruct arts as [|a arts]; [injection H as _ <- _; reflexivity|].
        destruct (select_model sv _ wb) as [[[n|f'] g'] wc].
        - destruct (GenerativeModel sv n wc) as [[e|u] wd]; [|discriminate].
          injection H as _ <- _. reflexivity.
        - injection H as _ <- _. reflexivity. }
      rewrite He. split; [discriminate|].
      intros [(e & wc & [=])|(arts' & wc & e & wd & [= <- <-] & Es')].
      rewrite Es in Es'. discriminate.
Qed.

End InitialisationOutcomes.

Lemma init_success_sets_every_holder_run :
  exists g1 arts enc ix n wa wb wc u,
    init_ai (world_ok (inr (Some reply_yes))) initial_globals 0 = (Ok tt, g1, 0)
    /\ load_corpus (world_ok (inr (Some reply_yes))) 0 = (inr arts, wa)
    /\ SentenceTransformer (world_ok (inr (Some reply_yes)))
         (lit "all-MiniLM-L6-v2") wa = (inr enc, wb)
    /\ GenerativeModel (world_ok (inr (Some reply_yes))) n wc = (inr u, 0)
    /\ articles g1 = Some arts
    /\ embed_model g1 = Some enc
    /\ index g1 = Some ix
    /\ gemini g1 = Some n
    /\ n <> []
    /\ (In n preferred
        \/ exists wx wy info,
             list_models (world_ok (inr (Some reply_yes))) wx = (inr info, wy)
             /\ kept info n).
Proof.
  assert (I : init_ai (world_ok (inr (Some reply_yes))) initial_globals 0
              = (Ok tt,
                 snd (fst (init_ai (world_ok (inr (Some reply_yes)))
                             initial_globals 0)), 0))
    by (vm_compute; reflexivity).
  destruct (init_success_sets_every_holder nat
              (world_ok (inr (Some reply_yes))) initial_globals _ 0 0
              eq_refl I) as (arts & enc & ix & n & wa & wb & wc & u & H).
  exists (snd (fst (init_ai (world_ok (inr (Some reply_yes))) initial_globals 0))),
    arts, enc, ix, n, wa, wb, wc, u.
  split; [exact I|exact H].
Defined.

Lemma init_is_done_once_run :
  exists g1,
    init_ai (world_ok (inr (Some reply_yes))) initial_globals 0 = (Ok tt, g1, 0)
    /\ forall w', init_ai (world_ok (inr (Some reply_yes))) g1 w' = (Ok tt, g1, w').
Proof.
  eexists. split; [vm_compute; reflexivity|].
  apply (init_is_done_once nat (world_ok (inr (Some reply_yes)))
           initial_globals _ 0 0).
  vm_compute. reflexivity.
Defined.

Lemma failed_binding_is_not_retried_run :
  exists g1,
    init_ai world_no_model initial_globals 0 = (Raise (Uncaught NO_MODEL), g1, 0)
    /\ forall data w',
        init_ai world_no_model g1 w' = (Ok tt, g1, w')
        /\ analyze world_no_model data g1 w'
           = (Raise (HTTPException 500
                       (message (attribute_error "generate_content"))), g1, w')
        /\ screen_scenario world_no_model data g1 w'
           = (Raise (HTTPException 500
                       (message (attribute_error "generate_content"))), g1, w').
Proof.
  eexists. split; [vm_compute; reflexivity|].
  apply (failed_binding_is_not_retried nat world_no_model initial_globals _
           0 0 0 0 [art12; art13; art14] length_encoder (Uncaught NO_MODEL)).
  - reflexivity.
  - reflexivity.
  - reflexivity.
  - discriminate.
  - reflexivity.
  - vm_compute. reflexivity.
Defined.

Lemma failed_load_is_tried_again_run :
  exists f g1,
    init_ai world_no_corpus initial_globals 0 = (Raise f, g1, 0)
    /\ (embed_model g1 = None <->
        (exists e wa, load_corpus world_no_corpus 0 = (inl e, wa))
        \/ (exists arts wa e wb,
               load_corpus world_no_corpus 0 = (inr arts, wa)
               /\ SentenceTransformer world_no_corpus (lit "all-MiniLM-L6-v2") wa
                  = (inl e, wb))).
Proof.
  eexists _, _. split; [vm_compute; reflexivity|].
  eapply (failed_load_is_tried_again nat world_no_corpus initial_globals _ 0 0).
  - reflexivity.
  - vm_compute. reflexivity.
Defined.

(** ** What a request can and cannot do *)

Section Requests.

Variable W : Type.
Variable sv : Services W.

Lemma search_keeps_state (user_input : str) (top_k : nat) (g g' : Globals)
    (w w' : W) (r : Result (list Article)) :
  @search_relevant_articles W user_input top_k g w = (r, g', w') ->
  g' = g /\ w' = w
  /\ (forall f, r = Raise f -> exists e, f = Uncaught e).
Proof.
  unfold search_relevant_articles, bind, get_globals, raise, ret.
  destruct (embed_model g) as [enc|].
  - destruct (index g) as [ix|].
    + destruct (lookup_articles (articles g) _) as [e|found];
        intros [= <- <- <-]; repeat split; intros f [= <-]; eauto.
    + intros [= <- <- <-]. repeat split. intros f [= <-]. eauto.
  - intros [= <- <- <-]. repeat split. intros f [= <-]. eauto.
Qed.

Lemma generate_keeps_globals (prompt : str) (g : Globals) (w : W) :
  exists r w', generate sv prompt g w = (Ok r, g, w').
Proof.
  unfold generate, bind, get_globals, attempt, ret.
  destruct (gemini g) as [m|]; [|eauto].
  destruct (generate_content sv m prompt w). eauto.
Qed.

(** The globals an endpoint leaves are those initialisation left, and its
    failures other than HTTP 500 are uncaught exceptions. *)
Lemma analyze_shape (data : ScenarioInput) (g g' : Globals) (w w' : W)
    (r : Result AnalyzeResponse) :
  analyze sv data g w = (r, g', w') ->
  (exists ri wi, init_ai sv g w = (ri, g', wi))
  /\ (forall c d, r = Raise (HTTPException c d) -> c = 500%Z).
Proof.
  unfold analyze, bind.
  destruct (init_ai sv g w) as [[[[]|f] g1] w1] eqn:I.
  - destruct (search_relevant_articles _ _ g1 w1) as [[[arts|f] g2] w2] eqn:S.
    + apply search_keeps_state in S. destruct S as (-> & -> & _).
      destruct (generate_keeps_globals (build_prompt (scenario data) arts) g1 w1)
        as (rr & w3 & ->).
      destruct rr as [e|t]; intros [= <- <- <-];
        (split; [eauto|]); intros c d [=]; auto.
    + apply search_keeps_state in S. destruct S as (-> & -> & Hf).
      destruct (Hf f eq_refl) as [e ->].
      intros [= <- <- <-]. split; [eauto|]. intros c d [=].
  - destruct (init_ai_raises_uncaught W sv g g1 w w1 f I) as [e ->].
    intros [= <- <- <-]. split; [eauto|]. intros c d [=].
Qed.

Lemma screen_scenario_shape (data : ScenarioInput) (g g' : Globals) (w w' : W)
    (r : Result ScreenResponse) :
  screen_scenario sv data g w = (r, g', w') ->
  (exists ri wi, init_ai sv g w = (ri, g', wi))
  /\ (forall c d, r = Raise (HTTPException c d) -> c = 500%Z).
Proof.
  unfold screen_scenario, bind.
  destruct (init_ai sv g w) as [[[[]|f] g1] w1] eqn:I.
  - destruct (search_relevant_articles _ _ g1 w1) as [[[arts|f] g2] w2] eqn:S.
    + apply search_keeps_state in S. destruct S as (-> & -> & _).
      destruct (generate_keeps_globals (build_prompt (scenario data) arts) g1 w1)
        as (rr & w3 & ->).
      destruct rr as [e|t].
      * intros [= <- <- <-]. split; [eauto|]. intros c d [=]. auto.
      * destruct (normalize_analysis_text t) as [t'|].
        -- destruct (parse_response t') as [e|resp]; intros [= <- <- <-];
             (split; [eauto|]); intros c d [=].
        -- intros [= <- <- <-]. split; [eauto|]. intros c d [=].
    + apply search_keeps_state in S. destruct S as (-> & -> & Hf).
      destruct (Hf f eq_refl) as [e ->].
      intros [= <- <- <-]. split; [eauto|]. intros c d [=].
  - destruct (init_ai_raises_uncaught W sv g g1 w w1 f I) as [e ->].
    intros [= <- <- <-]. split; [eauto|]. intros c d [=].
Qed.

(** X10. Once the encoder holder is set, no request changes any global:
    whatever the outcome, both endpoints leave the globals as they found
    them. *)
Theorem requests_leave_globals_alone (data : ScenarioInput) (g : Globals)
    (enc : str -> Vec) :
  embed_model g = Some enc ->
  (forall w r g' w', analyze sv data g w = (r, g', w') -> g' = g)
  /\ (forall w r g' w', screen_scenario sv data g w = (r, g', w') -> g' = g).
Proof.
  intros He. split; intros w r g' w' H.
  - apply analyze_shape in H. destruct H as [(ri & wi & I) _].
    rewrite (init_ai_noop W sv g w enc He) in I. injection I as _ <- _. reflexivity.
  - apply screen_scenario_shape in H. destruct H as [(ri & wi & I) _].
    rewrite (init_ai_noop W sv g w enc He) in I. injection I as _ <- _. reflexivity.
Qed.

(** X11. Whatever HTTP error either endpoint raises, its status is 500. *)
Theorem http_errors_are_500 (data : ScenarioInput) (g g' : Globals) (w w' : W)
    (c : Z) (d : str) :
  (analyze sv data g w = (Raise (HTTPException c d), g', w') -> c = 500%Z)
  /\ (screen_scenario sv data g w = (Raise (HTTPException c d), g', w') ->
      c = 500%Z).
Proof.
  split; intros H.
  - apply analyze_shape in H. destruct H as [_ H]. exact (H c d eq_refl).
  - apply screen_scenario_shape in H. destruct H as [_ H]. exact (H c d eq_refl).
Qed.

(** X15. A name that model selection returns is never empty and is either
    a preferred identifier or a name kept from the provider's list;
    selection itself changes no global. *)
Theorem selected_model_is_preferred_or_listed (g g' : Globals) (w w' : W)
    (n : str) :
  select_model sv g w = (Ok n, g', w') ->
  g' = g /\ n <> []
  /\ (In n preferred
      \/ exists wa wb info, list_models sv wa = (inr info, wb) /\ kept info n).
Proof.
  intros H. apply select_model_result in H. destruct H as [-> Hsel].
  split; [reflexivity|]. apply (selects_name W sv w w' n Hsel).
Qed.

End Requests.

Lemma requests_leave_globals_alone_run :
  exists g enc,
    embed_model g = Some enc
    /\ (forall w r g' w',
           analyze (world_ok (inr (Some reply_yes))) detained g w = (r, g', w') ->
           g' = g)
    /\ (forall w r g' w',
           screen_scenario (world_ok (inr (Some reply_yes))) detained g w
           = (r, g', w') -> g' = g).
Proof.
  exists (snd (fst (init_ai (world_ok (inr (Some reply_yes))) initial_globals 0))),
    length_encoder.
  split; [reflexivity|].
  apply (requests_leave_globals_alone nat (world_ok (inr (Some reply_yes)))
           detained _ length_encoder).
  reflexivity.
Defined.

Lemma http_errors_are_500_run :
  exists g' w' d,
    analyze world_fails_once detained initial_globals 0
    = (Raise (HTTPException 500 d), g', w')
    /\ 500%Z = 500%Z.
Proof.
  eexists _, _, _. split; [vm_compute; reflexivity|].
  eapply (proj1 (http_errors_are_500 nat world_fails_once detained
                   initial_globals _ 0 _ 500 _)).
  vm_compute. reflexivity.
Defined.

Lemma selected_model_is_preferred_or_listed_run :
  exists n,
    select_model (world_ok (inr (Some reply_yes))) initial_globals 0
    = (Ok n, initial_globals, 0)
    /\ initial_globals = initial_globals /\ n <> []
    /\ (In n preferred
        \/ exists wa wb info,
             list_models (world_ok (inr (Some reply_yes))) wa = (inr info, wb)
             /\ kept info n).
Proof.
  eexists. split; [vm_compute; reflexivity|].
  apply (selected_model_is_preferred_or_listed nat
           (world_ok (inr (Some reply_yes))) initial_globals initial_globals 0 0).
  vm_compute. reflexivity.
Defined.

(** ** The extracted sections *)

Lemma lstrip_head (s : str) (c : char) (rest : str) :
  lstrip s = c :: rest -> isspace c = false.
Proof.
  induction s as [|x s IH]; cbn [lstrip]; [discriminate|].
  destruct (isspace x) eqn:E; [exact IH|].
  intros [= <- _]. exact E.
Qed.

Lemma lstrip_suffix (s : str) : exists ws, s = ws ++ lstrip s.
Proof.
  induction s as [|x s [ws IH]]; cbn [lstrip]; [exists []; reflexivity|].
  destruct (isspace x).
  - exists (x :: ws). cbn. rewrite <- IH. reflexivity.
  - exists []. reflexivity.
Qed.

Lemma rstrip_prefix (s : str) : exists ws, s = rstrip s ++ ws.
Proof.
  unfold rstrip. destruct (lstrip_suffix (rev s)) as [ws E].
  exists (rev ws). rewrite <- rev_app_distr, <- E, rev_involutive. reflexivity.
Qed.

Lemma rstrip_last (s front : str) (c : char) :
  rstrip s = front ++ [c] -> isspace c = false.
Proof.
  unfold rstrip. intros E. apply (f_equal (@rev char)) in E.
  rewrite rev_involutive, rev_app_distr in E. cbn in E.
  exact (lstrip_head _ _ _ E).
Qed.

Lemma strip_trimmed (s : str) : trimmed (strip s).
Proof.
  unfold strip. split.
  - intros c rest E. destruct (rstrip_prefix (lstrip s)) as [ws P].
    rewrite E in P. cbn in P. exact (lstrip_head _ _ _ P).
  - intros front c E. exact (rstrip_last _ _ _ E).
Qed.

Lemma strip_within (s : str) : exists a b, s = a ++ strip s ++ b.
Proof.
  unfold strip. destruct (lstrip_suffix s) as [a Ea].
  destruct (rstrip_prefix (lstrip s)) as [b Eb].
  exists a, b. rewrite <- Eb. exact Ea.
Qed.

Lemma occurs_within (sub x a b : str) : occurs sub x -> occurs sub (a ++ x ++ b).
Proof.
  intros (n & h & t & -> & _). exists (length (a ++ h)), (a ++ h), (t ++ b).
  split; [|reflexivity]. rewrite <- !app_assoc. reflexivity.
Qed.

Lemma first_piece_prefix (sep s : str) : exists rest, s = first_piece sep s ++ rest.
Proof.
  unfold first_piece. destruct (partition sep s) as [[h t]|] eqn:P.
  - apply partition_Some in P. destruct P as [-> _]. eauto.
  - exists []. rewrite app_nil_r. reflexivity.
Qed.

(** The piece before the first separator does not contain the separator. *)
Lemma first_piece_no_sep (sep s : str) :
  sep <> [] -> ~ occurs sep (first_piece sep s).
Proof.
  intros Hsep. unfold first_piece.
  destruct (partition sep s) as [[h t]|] eqn:P.
  - apply partition_Some in P. destruct P as [-> Hmin].
    intros (n & a & b & -> & _).
    assert (Ho : occurs_at sep ((a ++ sep ++ b) ++ sep ++ t) (length a)).
    { exists a, (b ++ sep ++ t). split; [|reflexivity].
      rewrite <- !app_assoc. reflexivity. }
    apply Hmin in Ho. rewrite !length_app in Ho.
    destruct sep; [congruence|]. cbn [length] in Ho. lia.
  - apply partition_None. exact P.
Qed.

Lemma no_occurrence_in_part (sub x a b : str) :
  ~ occurs sub (a ++ x ++ b) -> ~ occurs sub x.
Proof. intros H Hx. apply H. apply occurs_within. exact Hx. Qed.

Lemma nothing_occurs_in_empty (sub : str) : sub <> [] -> ~ occurs sub [].
Proof.
  intros Hs (n & h & t & E & _). destruct h; [|discriminate].
  destruct sub; [congruence|discriminate].
Qed.

(** A section taken between two headers: trimmed, and free of both. *)
Lemma section_between_clean (a b t span : str) :
  a <> [] -> b <> [] ->
  section_between a b t = inr span ->
  trimmed span /\ ~ occurs a span /\ ~ occurs b span.
Proof.
  intros Ha Hb. rewrite section_between_eq by assumption.
  destruct (partition a t) as [[h tail]|].
  - intros [= <-]. split; [apply strip_trimmed|].
    destruct (strip_within (first_piece b (first_piece a tail))) as (x & y & E).
    split.
    + apply (no_occurrence_in_part _ _ x y). rewrite <- E.
      destruct (first_piece_prefix b (first_piece a tail)) as [rest P].
      apply (no_occurrence_in_part _ _ [] rest). cbn [app]. rewrite <- P.
      apply first_piece_no_sep. exact Ha.
    + apply (no_occurrence_in_part _ _ x y). rewrite <- E.
      apply first_piece_no_sep. exact Hb.
  - intros [= <-]. split; [|split; apply nothing_occurs_in_empty; assumption].
    split; [discriminate|]. intros front c E. destruct front; discriminate.
Qed.

Lemma section_after_clean (a t span : str) :
  a <> [] ->
  section_after a t = inr span -> trimmed span /\ ~ occurs a span.
Proof.
  intros Ha. rewrite section_after_eq by assumption.
  destruct (partition a t) as [[h tail]|].
  - intros [= <-]. split; [apply strip_trimmed|].
    destruct (strip_within (first_piece a tail)) as (x & y & E).
    apply (no_occurrence_in_part _ _ x y). rewrite <- E.
    apply first_piece_no_sep. exact Ha.
  - intros [= <-]. split; [|apply nothing_occurs_in_empty; assumption].
    split; [discriminate|]. intros front c E. destruct front; discriminate.
Qed.

Lemma detected_is_not_the_fixed_record :
  status no_violation_record <> STATUS_DETECTED.
Proof. discriminate. Qed.

(** X12. In a "Violation Detected" record the three extracted sections
    have no white space at either end; the article section contains
    neither "Violated Article(s):" nor "Explanation:", the explanation
    neither "Explanation:" nor "What the person can do next:", and the
    guidance no "What the person can do next:". *)
Theorem extracted_sections_are_trimmed_and_delimited
    (t : str) (resp : ScreenResponse) (v : StructuredViolation) :
  parse_response t = inr resp ->
  In v (violations resp) ->
  status v = STATUS_DETECTED ->
  (trimmed (article v) /\ trimmed (explanation v) /\ trimmed (guidance v))
  /\ (~ occurs HDR_ARTICLES (article v) /\ ~ occurs HDR_EXPLANATION (article v))
  /\ (~ occurs HDR_EXPLANATION (explanation v) /\ ~ occurs HDR_NEXT (explanation v))
  /\ ~ occurs HDR_NEXT (guidance v).
Proof.
  intros P Hin Hst. apply parse_response_inv in P.
  destruct P as (b & v' & _ & _ & Hv & Hrec & _).
  rewrite Hv in Hin. destruct Hin as [<-|[]].
  destruct b.
  - destruct Hrec as (_ & Ha & He & Hg & _).
    apply (section_between_clean _ _ _ _ lit_nonempty_articles
             lit_nonempty_explanation) in Ha.
    apply (section_between_clean _ _ _ _ lit_nonempty_explanation
             lit_nonempty_next) in He.
    apply (section_after_clean _ _ _ lit_nonempty_next) in Hg.
    destruct Ha as (? & ? & ?), He as (? & ? & ?), Hg as (? & ?). auto 10.
  - subst v'. destruct (detected_is_not_the_fixed_record Hst).
Qed.

Lemma extracted_sections_are_trimmed_and_delimited_run :
  exists resp v,
    parse_response reply_yes = inr resp
    /\ In v (violations resp)
    /\ status v = STATUS_DETECTED
    /\ (trimmed (article v) /\ trimmed (explanation v) /\ trimmed (guidance v))
    /\ (~ occurs HDR_ARTICLES (article v) /\ ~ occurs HDR_EXPLANATION (article v))
    /\ (~ occurs HDR_EXPLANATION (explanation v)
        /\ ~ occurs HDR_NEXT (explanation v))
    /\ ~ occurs HDR_NEXT (guidance v).
Proof.
  eexists _, _. split; [vm_compute; reflexivity|].
  split; [left; reflexivity|]. split; [reflexivity|].
  eapply (extracted_sections_are_trimmed_and_delimited reply_yes).
  - vm_compute. reflexivity.
  - left. reflexivity.
  - reflexivity.
Defined.

(** X13. The record and the recommendation follow [has_violation]: the
    status is "Violation Detected" exactly when it is true and "No
    Violation" exactly when it is false, and the summary carries one
    recommendation, to consult a legal advisor in the first case and to
    continue monitoring in the second. *)
Theorem status_and_recommendation_follow_has_violation
    (t : str) (resp : ScreenResponse) :
  parse_response t = inr resp ->
  exists b v,
    has_violation t = inr b
    /\ violations resp = [v]
    /\ (status v = STATUS_DETECTED <-> b = true)
    /\ (status v = lit "No Violation" <-> b = false)
    /\ recommendations (response_summary resp)
       = [ if b then lit "Consult with a legal advisor for detailed guidance"
           else lit "Continue monitoring the situation" ].
Proof.
  unfold parse_response.
  destruct (has_violation t) as [e|b]; [discriminate|].
  destruct b.
  - destruct (section_between HDR_ARTICLES HDR_EXPLANATION t) as [e|a]; [discriminate|].
    destruct (section_between HDR_EXPLANATION HDR_NEXT t) as [e|x]; [discriminate|].
    destruct (section_after HDR_NEXT t) as [e|gd]; [discriminate|].
    intros [= <-]. eexists true, _. cbn.
    repeat split; try reflexivity; discriminate.
  - intros [= <-]. exists false, no_violation_record. cbn.
    repeat split; try reflexivity; discriminate.
Qed.

Lemma status_and_recommendation_follow_has_violation_run :
  exists resp b v,
    parse_response reply_no = inr resp
    /\ has_violation reply_no = inr b
    /\ violations resp = [v]
    /\ (status v = STATUS_DETECTED <-> b = true)
    /\ (status v = lit "No Violation" <-> b = false)
    /\ recommendations (response_summary resp)
       = [ if b then lit "Consult with a legal advisor for detailed guidance"
           else lit "Continue monitoring the situation" ].
Proof.
  eexists.
  destruct (status_and_recommendation_follow_has_violation reply_no
              (match parse_response reply_no with
               | inr r => r
               | inl _ => {| violations := [];
                             response_summary :=
                               {| total_violations := 0; risk_level := [];
                                  recommendations := [] |};
                             raw_analysis := [] |}
               end)) as (b & v & H).
  - vm_compute. reflexivity.
  - exists b, v. split; [vm_compute; reflexivity|exact H].
Defined.

Section PlainReplies.

Variable W : Type.
Variable sv : Services W.

(** X14. A reply without any backslash goes through the normaliser
    untouched: the response of ScreenScenario is then the parse of the
    reply itself, and [raw_analysis] is the reply. *)
Theorem plain_reply_is_parsed_as_it_is
    (data : ScenarioInput) (g : Globals) (w : W) (prompt : str)
    (g2 : Globals) (w2 w3 : W) (model reply : str) :
  reaches_reasoner sv 5 data g w prompt g2 w2 ->
  gemini g2 = Some model ->
  generate_content sv model prompt w2 = (inr (Some reply), w3) ->
  ~ In BACKSLASH reply ->
  exists resp,
    screen_scenario sv data g w = (Ok resp, g2, w3)
    /\ parse_response reply = inr resp
    /\ raw_analysis resp = reply.
Proof.
  intros Hr Hm Hc Hno.
  rewrite (screen_scenario_from_reasoner W sv _ _ _ _ _ _ Hr).
  rewrite (generate_bound W sv _ _ _ _ Hm), Hc. cbn [fst snd].
  unfold normalize_analysis_text, re_found.
  rewrite (search_status_no_needs_backslash reply Hno).
  destruct (parse_response_total reply) as [resp P]. rewrite P.
  exists resp. split; [reflexivity|]. split; [reflexivity|].
  apply parse_response_inv in P. destruct P as (b & v & _ & Hraw & _). exact Hraw.
Qed.

End PlainReplies.

Lemma not_in_by_search (c : char) (s : str) :
  existsb (N.eqb c) s = false -> ~ In c s.
Proof.
  intros H Hin. assert (E : existsb (N.eqb c) s = true).
  { apply existsb_exists. exists c. split; [exact Hin|apply N.eqb_refl]. }
  congruence.
Qed.

Lemma plain_reply_is_parsed_as_it_is_run :
  exists g2 resp,
    screen_scenario (world_ok (inr (Some reply_yes))) detained initial_globals 0
    = (Ok resp, g2, 1)
    /\ parse_response reply_yes = inr resp
    /\ raw_analysis resp = reply_yes.
Proof.
  eexists.
  refine (plain_reply_is_parsed_as_it_is nat (world_ok (inr (Some reply_yes)))
            detained initial_globals 0 _ _ 0 1
            (lit "models/gemini-2.5-flash") reply_yes _ _ _ _).
  - eexists _, _, _. split; [vm_compute; reflexivity|].
    split; [vm_compute; reflexivity|reflexivity].
  - vm_compute. reflexivity.
  - vm_compute. reflexivity.
  - apply not_in_by_search. vm_compute. reflexivity.
Defined.

(** ** More on the normaliser *)

(** X1. A text that contains no backslash character is returned by the
    normaliser exactly as it came, whatever its status line says: the
    status pattern of the code can only be found where a backslash follows
    the header. *)
Theorem normalizer_is_identity_without_backslash (t : str) :
  ~ In BACKSLASH t -> normalize_analysis_text (Some t) = Some t.
Proof.
  intros Hno. unfold normalize_analysis_text, re_found.
  rewrite (search_status_no_needs_backslash t Hno). reflexivity.
Qed.

Lemma normalizer_is_identity_without_backslash_run :
  ~ In BACKSLASH reply_no
  /\ normalize_analysis_text (Some reply_no) = Some reply_no.
Proof.
  assert (H : ~ In BACKSLASH reply_no).
  { apply not_in_by_search. vm_compute. reflexivity. }
  split; [exact H|]. exact (normalizer_is_identity_without_backslash reply_no H).
Defined.

(** A greedy star before a pattern that always runs to the end of the
    text runs to the end of the text. *)
Lemma star_to_the_end (p : char -> bool) (r : regex) :
  (forall t, match_here r t = Some []) ->
  forall t, match_here (StarG p :: r) t = Some [].
Proof.
  intros Hr t. cbn [match_here]. induction t as [|ch t IH]; [apply Hr|].
  destruct (p ch); [|apply Hr]. rewrite IH. reflexivity.
Qed.

Lemma dot_star_to_the_end (t : str) : match_here [StarG any_char] t = Some [].
Proof.
  induction t as [|ch t IH]; [reflexivity|].
  change (match match_here [StarG any_char] t with
          | Some rest => Some rest
          | None => Some (ch :: t)
          end = Some []).
  rewrite IH. reflexivity.
Qed.

Lemma next_template_expanded :
  expand_template (HDR_NEXT ++ lit "\n" ++ MSG_NEXT) = HDR_NEXT ++ [LF] ++ MSG_NEXT.
Proof. vm_compute. reflexivity. Qed.

Lemma match_here_chars_prefix (p : str) (r : regex) (s : str) :
  match_here (chars p ++ r) s
  = match strip_prefix p s with
    | Some s' => match_here r s'
    | None => None
    end.
Proof.
  revert s; induction p as [|c p IH]; intros s; [reflexivity|].
  cbn [chars map app match_here strip_prefix].
  destruct s as [|ch s]; [reflexivity|].
  rewrite (N.eqb_sym ch c). destruct (c =? ch)%N; [apply IH|reflexivity].
Qed.

(** [RE_NEXT] matches exactly where the header followed by a backslash
    starts, and then runs to the end of the text. *)
Lemma match_next_eq (s : str) :
  match_here RE_NEXT s
  = match strip_prefix NEXT_MARK s with Some _ => Some [] | None => None end.
Proof.
  change RE_NEXT
    with (chars NEXT_MARK ++ [StarG (N.eqb 115%N); StarG any_char]).
  rewrite match_here_chars_prefix.
  destruct (strip_prefix NEXT_MARK s) as [s'|]; [|reflexivity].
  apply star_to_the_end. exact dot_star_to_the_end.
Qed.

Lemma search_next_eq (s : str) :
  re_search RE_NEXT s
  = match partition NEXT_MARK s with
    | Some (front, _) => Some (front, [])
    | None => None
    end.
Proof.
  induction s as [|c s IH]; cbn [re_search]; rewrite match_next_eq, partition_eq.
  - destruct (strip_prefix NEXT_MARK []); reflexivity.
  - destruct (strip_prefix NEXT_MARK (c :: s)); [reflexivity|].
    rewrite IH. destruct (partition NEXT_MARK s) as [[front tail]|]; reflexivity.
Qed.

(** X2. When the status pattern of the code is found, the last step of the
    normaliser depends on the text reached after the status and the
    explanation steps.  If that text contains the header "What the person
    can do next:" followed by a backslash, everything from the first such
    place to the end of the text is replaced by the header, a newline and
    the fixed note.  Otherwise the text is stripped and the two characters
    backslash-n twice, the header, backslash-n once more and the fixed
    note are appended. *)
Theorem fired_normalizer_ends_with_the_fixed_note (t : str) :
  re_found RE_STATUS_NO t = true ->
  match partition NEXT_MARK (after_explanation_step t) with
  | Some (front, _) =>
      normalize_analysis_text (Some t)
      = Some (front ++ HDR_NEXT ++ [LF] ++ MSG_NEXT)
  | None =>
      normalize_analysis_text (Some t)
      = Some (strip (after_explanation_step t)
              ++ lit "\n\n" ++ HDR_NEXT ++ lit "\n" ++ MSG_NEXT)
  end.
Proof.
  intros H. unfold normalize_analysis_text. rewrite H.
  fold (after_explanation_step t).
  generalize (after_explanation_step t). intros t2.
  unfold re_found. pose proof (search_next_eq t2) as S.
  destruct sub_patterns_start_with_literal as [_ (c & r & E)].
  destruct (partition NEXT_MARK t2) as [[front tail]|].
  - rewrite E in *. rewrite S, re_sub_eq, S, next_template_expanded.
    unfold re_sub. cbn [length re_sub_fuel]. rewrite app_nil_r. reflexivity.
  - rewrite E in *. rewrite S. reflexivity.
Qed.

Lemma fired_normalizer_ends_with_the_fixed_note_run :
  normalize_analysis_text (Some reply_backslash_next)
  = Some (lit "Violation Status: No" ++ [LF] ++ HDR_NEXT ++ [LF] ++ MSG_NEXT)
  /\ normalize_analysis_text (Some reply_backslash)
     = Some (strip (after_explanation_step reply_backslash)
             ++ lit "\n\n" ++ HDR_NEXT ++ lit "\n" ++ MSG_NEXT).
Proof.
  split.
  - pose proof (fired_normalizer_ends_with_the_fixed_note reply_backslash_next
                  eq_refl) as H.
    vm_compute in H. vm_compute. exact H.
  - exact (fired_normalizer_ends_with_the_fixed_note reply_backslash eq_refl).
Defined.

(** ** The size of the prompt *)

Lemma article_block_length (art : Article) :
  length (article_block art)
  = 37 + length (article_id art) + length (get_or_empty (summary art))
    + length (get_or_empty (text art)).
Proof.
  rewrite article_block_layout. rewrite !length_app. cbn [length lit map
    list_ascii_of_string]. lia.
Qed.

(** X16. The prompt grows by exactly what is put into it: its length is
    the 1089 characters of the template plus the length of the scenario
    plus, for each article, 37 characters of labels and the lengths of its
    id, summary and text, a missing summary or text counting as empty. *)
Theorem build_prompt_length (user_scenario : str) (matched_articles : list Article) :
  length (build_prompt user_scenario matched_articles)
  = 1089 + length user_scenario
    + list_sum
        (map (fun art => 37 + length (article_id art)
                         + length (get_or_empty (summary art))
                         + length (get_or_empty (text art)))
             matched_articles).
Proof.
  destruct build_prompt_layout as (head & mid & tail & Hh & Hm & Ht & E).
  rewrite E, !length_app, Hh, Hm, Ht.
  assert (Hb : length (flat_map article_block matched_articles)
               = list_sum (map (fun art => 37 + length (article_id art)
                                           + length (get_or_empty (summary art))
                                           + length (get_or_empty (text art)))
                               matched_articles)).
  { induction matched_articles as [|a l IH]; [reflexivity|].
    cbn [flat_map map list_sum]. rewrite length_app, article_block_length, IH.
    reflexivity. }
  rewrite Hb. lia.
Qed.

(** ** Sections are parts of the reply *)

Lemma section_between_within (a b t span : str) :
  a <> [] -> b <> [] ->
  section_between a b t = inr span -> exists l r, t = l ++ span ++ r.
Proof.
  intros Ha Hb. rewrite section_between_eq by assumption.
  destruct (partition a t) as [[h tail]|] eqn:P.
  - intros [= <-]. apply partition_Some in P. destruct P as [-> _].
    destruct (first_piece_prefix a tail) as [r1 E1].
    destruct (first_piece_prefix b (first_piece a tail)) as [r2 E2].
    destruct (strip_within (first_piece b (first_piece a tail))) as (x & y & E3).
    exists (h ++ a ++ x), (y ++ r2 ++ r1).
    rewrite E1 at 1. rewrite E2 at 1. rewrite E3 at 1.
    rewrite <- !app_assoc. reflexivity.
  - intros [= <-]. exists [], t. reflexivity.
Qed.

Lemma section_after_within (a t span : str) :
  a <> [] ->
  section_after a t = inr span -> exists l r, t = l ++ span ++ r.
Proof.
  intros Ha. rewrite section_after_eq by assumption.
  destruct (partition a t) as [[h tail]|] eqn:P.
  - intros [= <-]. apply partition_Some in P. destruct P as [-> _].
    destruct (first_piece_prefix a tail) as [r1 E1].
    destruct (strip_within (first_piece a tail)) as (x & y & E3).
    exists (h ++ a ++ x), (y ++ r1).
    rewrite E1 at 1. rewrite E3 at 1.
    rewrite <- !app_assoc. reflexivity.
  - intros [= <-]. exists [], t. reflexivity.
Qed.

(** X17. In a "Violation Detected" record nothing is made up: the
    article, explanation and guidance sections are each a contiguous part
    of the analysed text. *)
Theorem extracted_sections_are_parts_of_the_text
    (t : str) (resp : ScreenResponse) (v : StructuredViolation) :
  parse_response t = inr resp ->
  In v (violations resp) ->
  status v = STATUS_DETECTED ->
  (exists l r, t = l ++ article v ++ r)
  /\ (exists l r, t = l ++ explanation v ++ r)
  /\ (exists l r, t = l ++ guidance v ++ r).
Proof.
  intros P Hin Hst. apply parse_response_inv in P.
  destruct P as (b & v' & _ & _ & Hv & Hrec & _).
  rewrite Hv in Hin. destruct Hin as [<-|[]].
  destruct b.
  - destruct Hrec as (_ & Ha & He & Hg & _). repeat split.
    + exact (section_between_within _ _ _ _ lit_nonempty_articles
               lit_nonempty_explanation Ha).
    + exact (section_between_within _ _ _ _ lit_nonempty_explanation
               lit_nonempty_next He).
    + exact (section_after_within _ _ _ lit_nonempty_next Hg).
  - subst v'. destruct (detected_is_not_the_fixed_record Hst).
Qed.

Lemma extracted_sections_are_parts_of_the_text_run :
  exists resp v,
    parse_response reply_yes = inr resp
    /\ In v (violations resp)
    /\ status v = STATUS_DETECTED
    /\ (exists l r, reply_yes = l ++ article v ++ r)
    /\ (exists l r, reply_yes = l ++ explanation v ++ r)
    /\ (exists l r, reply_yes = l ++ guidance v ++ r).
Proof.
  eexists _, _. split; [vm_compute; reflexivity|].
  split; [left; reflexivity|]. split; [reflexivity|].
  eapply (extracted_sections_are_parts_of_the_text reply_yes).
  - vm_compute. reflexivity.
  - left. reflexivity.
  - reflexivity.
Defined.

(** ** Retrieval on a corpus that is large enough *)

(** X3. With the encoder, the corpus and an index of one row per article
    in place, retrieval of a positive count [top_k] not above the corpus
    size returns exactly [top_k] records, read at [top_k] different
    positions of the corpus: nothing is padded and no article comes
    twice. *)
Theorem retrieval_on_large_corpus_has_no_repeats (W : Type) (g : Globals)
    (w : W) (encode : str -> Vec) (ix : IndexFlatL2) (arts : list Article)
    (user_input : str) (top_k : nat) :
  embed_model g = Some encode -> index g = Some ix -> articles g = Some arts ->
  length (rows ix) = length arts ->
  0 < top_k -> top_k <= length arts ->
  exists positions found,
    @search_relevant_articles W user_input top_k g w = (Ok found, g, w)
    /\ length found = top_k
    /\ NoDup positions
    /\ Forall2 (fun i a => nth_error arts i = Some a) positions found.
Proof.
  intros He Hi Ha Hl _ Hk.
  destruct (retrieval_nearest_first W g w encode ix arts user_input top_k
              He Hi Ha Hl Hk) as (labels & found & S & Hlen & F & N).
  exists labels, found. split; [exact S|]. split; [exact Hlen|].
  split; [apply N|exact F].
Qed.

Lemma retrieval_on_large_corpus_has_no_repeats_run :
  exists g positions found,
    init_ai (world_ok (inr (Some reply_yes))) initial_globals 0 = (Ok tt, g, 0)
    /\ @search_relevant_articles nat (scenario detained) 3 g 0 = (Ok found, g, 0)
    /\ length found = 3
    /\ NoDup positions
    /\ Forall2 (fun i a => nth_error [art12; art13; art14] i = Some a)
         positions found.
Proof.
  exists (snd (fst (init_ai (world_ok (inr (Some reply_yes))) initial_globals 0))).
  destruct (retrieval_on_large_corpus_has_no_repeats nat
              (snd (fst (init_ai (world_ok (inr (Some reply_yes)))
                           initial_globals 0)))
              0 length_encoder
              {| dimension := 1; rows := [[62%Z]; [51%Z]; [62%Z]] |}
              [art12; art13; art14] (scenario detained) 3)
    as (positions & found & H); try reflexivity.
  - lia.
  - exists positions, found. split; [vm_compute; reflexivity|exact H].
Defined.
